(** * Encuentra24 housing scraper: a shallow embedding of [scraper.py]

    The development follows the source file top to bottom: Python text
    values, [make_absolute_url], the catalog paginator [get_listing_urls],
    the extractors [parse_specs], [parse_details], [parse_images] and the
    listing assembler [scrape_listing].

    Conventions.
    - A Python [str] is a sequence of Unicode code points: [list N].
      Literals are written [py "..."], which decodes the UTF-8 bytes of
      the Rocq literal, so that [py "área"] has four elements.
    - Dictionaries with text keys are [gmap str str]; the [seen] set of
      the image harvester is a [gset str].
    - A parsed page is modelled by what the source asks of it: one
      field per selector query, holding the texts and attribute values
      the query yields, in document order.
    - The network is a function from the requests made so far and the
      requested URL to a response; a failed request is [None]. *)

From Stdlib Require Import ZArith NArith List Lia.
From Stdlib Require Import Strings.String Strings.Ascii Numbers.DecimalString.
From Stdlib Require Numbers.DecimalPos Numbers.DecimalZ.
From stdpp Require Import gmap list.

Local Open Scope N_scope.

(** ** Python text *)

Module PyStr.

Definition str := list N.

(** UTF-8 decoding of a literal (well-formed input only). *)
Fixpoint utf8_decode (bytes : list N) : list N :=
  match bytes with
  | [] => []
  | b0 :: r0 =>
    if b0 <? 128 then b0 :: utf8_decode r0
    else
      match r0 with
      | [] => [b0]
      | b1 :: r1 =>
        if b0 <? 224 then ((b0 - 192) * 64 + (b1 - 128)) :: utf8_decode r1
        else
          match r1 with
          | [] => [b0; b1]
          | b2 :: r2 =>
            if b0 <? 240
            then ((b0 - 224) * 4096 + (b1 - 128) * 64 + (b2 - 128))
                   :: utf8_decode r2
            else
              match r2 with
              | [] => [b0; b1; b2]
              | b3 :: r3 =>
                ((b0 - 240) * 262144 + (b1 - 128) * 4096
                 + (b2 - 128) * 64 + (b3 - 128)) :: utf8_decode r3
              end
          end
      end
  end.

Definition py (s : string) : str :=
  utf8_decode (N_of_ascii <$> list_ascii_of_string s).

(** [bool(s)]: a text value is true when it is not empty. *)
Definition truthy (s : str) : bool :=
  match s with [] => false | _ :: _ => true end.

(** [s.startswith(p)] *)
Fixpoint startswith (p s : str) : bool :=
  match p, s with
  | [], _ => true
  | _ :: _, [] => false
  | a :: p', b :: s' => if decide (a = b) then startswith p' s' else false
  end.

(** [p in s] *)
Fixpoint contains (p s : str) : bool :=
  startswith p s || match s with [] => false | _ :: s' => contains p s' end.

(** [s.replace(old, new)] for a non-empty [old]: occurrences are found
    left to right and do not overlap.  [skip] counts the characters of
    the occurrence just replaced that are still to be passed over. *)
Fixpoint replace_from (old new : str) (skip : nat) (s : str) : str :=
  match s with
  | [] => []
  | c :: t =>
    match skip with
    | S k => replace_from old new k t
    | O =>
      if startswith old s
      then new ++ replace_from old new (pred (length old)) t
      else c :: replace_from old new 0 t
    end
  end.

Definition replace (old new s : str) : str := replace_from old new 0 s.

(** [s.replace(old, new, 1)] *)
Fixpoint replace_first (old new s : str) : str :=
  if startswith old s then new ++ drop (length old) s
  else match s with
       | [] => []
       | c :: t => c :: replace_first old new t
       end.

(** [s.rstrip(...)]: drop the longest suffix of characters satisfying
    [p]. *)
Fixpoint rstrip_by (p : N -> bool) (s : str) : str :=
  match s with
  | [] => []
  | c :: t =>
    match rstrip_by p t with
    | [] => if p c then [] else [c]
    | t' => c :: t'
    end
  end.

Fixpoint lstrip_by (p : N -> bool) (s : str) : str :=
  match s with
  | [] => []
  | c :: t => if p c then lstrip_by p t else s
  end.

(** [s.rstrip(ch)] for a one-character argument. *)
Definition rstrip (ch : N) (s : str) : str := rstrip_by (N.eqb ch) s.

(** [s.strip()], given the predicate of Unicode white space. *)
Definition strip (space : N -> bool) (s : str) : str :=
  rstrip_by space (lstrip_by space s).

(** [s.split(sep)] for a one-character [sep]; the result is never
    empty. *)
Fixpoint split (sep : N) (s : str) : list str :=
  match s with
  | [] => [[]]
  | c :: t =>
    if decide (c = sep) then [] :: split sep t
    else match split sep t with
         | [] => [[c]]
         | seg :: segs => (c :: seg) :: segs
         end
  end.

(** [str(n)] for an integer. *)
Definition str_of_int (n : Z) : str :=
  py (NilZero.string_of_int (Z.to_int n)).

End PyStr.

Import PyStr.

(** The character tables of the Python runtime that the source relies
    on: [str.lower], the decimal digits matched by [\d] and the white
    space removed by [str.strip]. *)
Class UnicodeData := {
  str_lower : str -> str;
  is_decimal : N -> bool;
  is_space : N -> bool
}.

(** The tables restricted to ASCII; they agree with Python on ASCII
    text. *)
Definition ascii_lower_char (c : N) : N :=
  if (65 <=? c) && (c <=? 90) then c + 32 else c.

Definition ascii_unicode : UnicodeData := {|
  str_lower := fun s => ascii_lower_char <$> s;
  is_decimal := fun c => (48 <=? c) && (c <=? 57);
  is_space := fun c => ((9 <=? c) && (c <=? 13)) || ((28 <=? c) && (c <=? 32))
|}.

(** ** Regular expressions of the shape [literal[class]+] *)

Fixpoint take_class (cls : N -> bool) (s : str) : str :=
  match s with
  | [] => []
  | c :: t => if cls c then c :: take_class cls t else []
  end.

(** A match anchored at the start of [s]: the literal, then the longest
    non-empty run of class characters. *)
Definition match_here (lit : str) (cls : N -> bool) (s : str) : option str :=
  if startswith lit s then
    let run := take_class cls (drop (length lit) s) in
    if truthy run then Some (lit ++ run) else None
  else None.

(** [re.search]: the leftmost match. *)
Fixpoint re_search (lit : str) (cls : N -> bool) (s : str) : option str :=
  match match_here lit cls s with
  | Some m => Some m
  | None =>
    match s with
    | [] => None
    | _ :: t => re_search lit cls t
    end
  end.

(** [re.findall]: the matches from left to right, each search resuming
    where the previous match ended. *)
Fixpoint re_findall_from (lit : str) (cls : N -> bool) (skip : nat) (s : str)
  : list str :=
  match s with
  | [] => []
  | _ :: t =>
    match skip with
    | S k => re_findall_from lit cls k t
    | O =>
      match match_here lit cls s with
      | Some m => m :: re_findall_from lit cls (pred (length m)) t
      | None => re_findall_from lit cls 0 t
      end
    end
  end.

Definition re_findall (lit : str) (cls : N -> bool) (s : str) : list str :=
  re_findall_from lit cls 0 s.

(** ** Pages and the network *)

(** What the source reads from a parsed page.  An element found by
    [select_one] is given by its [get_text(strip=True)], an attribute
    by its value, [None] standing for an absent element or attribute. *)
Record Document := {
  (** [a.d3-ad-tile__description]: the [href] of each anchor *)
  ad_tile_links : list (option str);
  (** [.d3-property-insight__attribute]: title element, value element *)
  insight_attributes : list (option str * option str);
  (** [.d3-ad-tile__details-item]: the [use] element with its
      [xlink:href], the [span] element *)
  details_items : list (option (option str) * option str);
  (** [.d3-property-details__detail]: label element, text of the row *)
  detail_rows : list (option str * str);
  (** gallery images: [data-src], [src] *)
  gallery_imgs : list (option str * option str);
  (** [script]: the [.string] of each script *)
  scripts : list (option str);
  (** [data-gallery], [data-images], [data-photo] of each element
      carrying one of them *)
  data_blobs : list (option str * option str * option str);
  h1_el : option str;
  title_el : option str;
  estate_price_el : option str;
  d3_price_el : option str;
  (** [soup.get_text()] *)
  page_text : str;
  d3_location_el : option str;
  location_el : option str;
  about_text_el : option str;
  description_content_el : option str
}.

(** A page on which none of the selectors finds anything. *)
Definition blank_page : Document := {|
  ad_tile_links := []; insight_attributes := []; details_items := [];
  detail_rows := []; gallery_imgs := []; scripts := []; data_blobs := [];
  h1_el := None; title_el := None; estate_price_el := None;
  d3_price_el := None; page_text := []; d3_location_el := None;
  location_el := None; about_text_el := None; description_content_el := None
|}.

(** [requests.get] followed by [BeautifulSoup]: the answer may depend
    on the requests made before; [None] is a raised exception. *)
Definition transport := list str -> str -> option Document.

(** [a or b] on elements: an element is true whenever it exists. *)
Definition el_or (a b : option str) : option str :=
  match a with Some _ => a | None => b end.

(** [el.get_text(strip=True) if el else ""] *)
Definition text_or_empty (el : option str) : str := default [] el.

(** [a or rest] on an attribute value. *)
Definition attr_or (a : option str) (rest : str) : str :=
  match a with
  | Some s => if truthy s then s else rest
  | None => rest
  end.

(** ** [make_absolute_url] *)

Definition BASE_URL : str := py "https://www.encuentra24.com".
Definition SALE_URL : str :=
  py "https://www.encuentra24.com/el-salvador-es/bienes-raices-venta-de-propiedades-casas".
Definition RENT_URL : str :=
  py "https://www.encuentra24.com/el-salvador-es/bienes-raices-alquiler-casas".

Definition make_absolute_url (href : str) : str :=
  if startswith (py "http") href then href else BASE_URL ++ href.

(** ** [get_listing_urls] *)

(** [base_url if page == 1 else f"{base_url}.{page}"] *)
Definition page_url (base_url : str) (page : Z) : str :=
  if decide (page = 1%Z) then base_url
  else base_url ++ py "." ++ str_of_int page.

(** [l[:n]] *)
Definition slice_to {A} (n : Z) (l : list A) : list A :=
  if (0 <=? n)%Z then take (Z.to_nat n) l
  else take (length l - Z.to_nat (- n)) l.

(** The [for link in links] loop, with its [break]. *)
Fixpoint collect_links (max_listings : Z) (links : list (option str))
    (urls : list str) : list str :=
  match links with
  | [] => urls
  | href :: rest =>
    match href with
    | Some href =>
      if truthy href then
        let absolute_url := make_absolute_url href in
        if decide (absolute_url ∈ urls) then collect_links max_listings rest urls
        else
          let urls := urls ++ [absolute_url] in
          if (Z.of_nat (length urls) >=? max_listings)%Z then urls
          else collect_links max_listings rest urls
      else collect_links max_listings rest urls
    | None => collect_links max_listings rest urls
    end
  end.

(** The variables of the [while] loop, and the requests made so far. *)
Record Crawl := {
  urls : list str;
  page : Z;
  requests : list str
}.

(** The [while] loop.  It has no bound of its own, so the model takes
    the number of iterations it may use; [None] means that this number
    did not suffice. *)
Fixpoint paginate (fuel : nat) (net : transport) (base_url : str)
    (max_listings : Z) (st : Crawl) : option Crawl :=
  if (Z.of_nat (length (urls st)) <? max_listings)%Z then
    match fuel with
    | O => None
    | S fuel =>
      let url := page_url base_url (page st) in
      let asked := requests st ++ [url] in
      match net (requests st) url with
      | None =>
        Some {| urls := urls st; page := page st; requests := asked |}
      | Some soup =>
        match ad_tile_links soup with
        | [] => Some {| urls := urls st; page := page st; requests := asked |}
        | links =>
          paginate fuel net base_url max_listings
            {| urls := collect_links max_listings links (urls st);
               page := (page st + 1)%Z;
               requests := asked |}
        end
      end
    end
  else Some st.

Definition crawl_start : Crawl := {| urls := []; page := 1%Z; requests := [] |}.

Definition get_listing_urls (fuel : nat) (net : transport) (base_url : str)
    (max_listings : Z) : option (list str) :=
  st ← paginate fuel net base_url max_listings crawl_start;
  Some (slice_to max_listings (urls st)).

(** The requests a run of [get_listing_urls] makes, in order. *)
Definition get_listing_requests (fuel : nat) (net : transport) (base_url : str)
    (max_listings : Z) : option (list str) :=
  st ← paginate fuel net base_url max_listings crawl_start;
  Some (requests st).

(** ** [parse_specs] *)

Section Extractors.
Context {U : UnicodeData}.

(** One step of the first loop. *)
Definition insight_step (specs : gmap str str)
    (item : option str * option str) : gmap str str :=
  match item with
  | (Some label_el, Some value_el) =>
    let label := str_lower label_el in
    let value := value_el in
    if contains (py "área") label || contains (py "m²") label
       || contains (py "construida") label
    then <[py "area" := value]> specs
    else if contains (py "recámaras") label || contains (py "habitaciones") label
    then <[py "bedrooms" := value]> specs
    else if contains (py "baños") label
    then <[py "bathrooms" := value]> specs
    else if contains (py "estacionamientos") label || contains (py "parqueo") label
    then <[py "parking" := value]> specs
    else if contains (py "precio") label
    then <[py "price_per_m2" := value]> specs
    else specs
  | _ => specs
  end.

(** One step of the second loop. *)
Definition tile_step (specs : gmap str str)
    (item : option (option str) * option str) : gmap str str :=
  match item with
  | (Some use_el, Some value_el) =>
    let href := default [] use_el in
    let value := value_el in
    if contains (py "#resize") href then <[py "area" := value]> specs
    else if contains (py "#bed") href then <[py "bedrooms" := value]> specs
    else if contains (py "#bath") href then <[py "bathrooms" := value]> specs
    else if contains (py "#parking") href then <[py "parking" := value]> specs
    else specs
  | _ => specs
  end.

(** The map after the first loop. *)
Definition insight_pass (soup : Document) : gmap str str :=
  fold_left insight_step (insight_attributes soup) ∅.

Definition parse_specs (soup : Document) : gmap str str :=
  fold_left tile_step (details_items soup) (insight_pass soup).

(** ** [parse_details] *)

Definition detail_step (details : gmap str str)
    (item : option str * str) : gmap str str :=
  match item with
  | (Some label, full_text) =>
    let value := strip is_space (replace_first label [] full_text) in
    if truthy label && truthy value then <[label := value]> details
    else details
  | (None, _) => details
  end.

Definition parse_details (soup : Document) : gmap str str :=
  fold_left detail_step (detail_rows soup) ∅.

End Extractors.

(** ** [parse_images] *)

Definition PHOTO_HOST : str := py "photos.encuentra24.com".
Definition PHOTO_PREFIX : str := py "https://photos.encuentra24.com".

(** The character class of the pattern of the second method.  The
    pattern is a raw literal, in which the class reads: caret, double
    quote, backslash, single quote, backslash, backslash, s.  The two
    backslashes stand for one literal backslash and the s that follows
    is the plain letter, so the class excludes the two quotes (34, 39),
    the backslash (92) and the letter s (115). *)
Definition script_url_char (c : N) : bool :=
  negb (bool_decide (c ∈ [34; 39; 92; 115])).

(** The class of the third method, which also excludes the closing
    bracket (93). *)
Definition blob_url_char (c : N) : bool :=
  negb (bool_decide (c ∈ [34; 39; 92; 115; 93])).

(** [for url in photo_urls: if url not in images: images.append(url)] *)
Definition append_new (images : list str) (photo_urls : list str) : list str :=
  fold_left
    (fun images url => if decide (url ∈ images) then images else images ++ [url])
    photo_urls images.

(** Method 1. *)
Definition gallery_step (images : list str)
    (img : option str * option str) : list str :=
  let src := attr_or (fst img) (attr_or (snd img) []) in
  if truthy src && contains PHOTO_HOST src then images ++ [src]
  else if truthy src && startswith (py "http") src then images ++ [src]
  else images.

(** Method 2. *)
Definition script_step (images : list str) (script : option str) : list str :=
  let script_text := attr_or script [] in
  let photo_urls := re_findall PHOTO_PREFIX script_url_char script_text in
  append_new images photo_urls.

(** Method 3. *)
Definition blob_step (images : list str)
    (el : option str * option str * option str) : list str :=
  let '(data_gallery, data_images, data_photo) := el in
  let data := attr_or data_gallery (attr_or data_images (attr_or data_photo [])) in
  let photo_urls := re_findall PHOTO_PREFIX blob_url_char data in
  append_new images photo_urls.

(** The list [images] when the three methods are done. *)
Definition harvest_images (soup : Document) : list str :=
  let images := fold_left gallery_step (gallery_imgs soup) [] in
  let images := fold_left script_step (scripts soup) images in
  fold_left blob_step (data_blobs soup) images.

(** [img.replace("\\u002F", "/").replace("\\/", "/")] *)
Definition clean_url (img : str) : str :=
  replace (py "\/") (py "/") (replace (py "\u002F") (py "/") img).

(** The closing loop of [parse_images]. *)
Definition unique_step (acc : gset str * list str) (img : str)
  : gset str * list str :=
  let '(seen, unique_images) := acc in
  let img := clean_url img in
  if decide (img ∈ seen) then (seen, unique_images)
  else ({[img]} ∪ seen, unique_images ++ [img]).

Definition unique_images (images : list str) : list str :=
  snd (fold_left unique_step images (∅, [])).

Definition parse_images (soup : Document) : list str :=
  unique_images (harvest_images soup).

(** ** [scrape_listing] *)

Record ListingRecord := {
  title : str;
  price : str;
  location : str;
  published_date : str;
  listing_type : str;
  url : str;
  external_id : str;
  specs : gmap str str;
  details : gmap str str;
  description : str;
  images : list str
}.

(** The class [[\d,\.]] of the price pattern. *)
Definition price_char {U : UnicodeData} (c : N) : bool :=
  is_decimal c || bool_decide (c = 44) || bool_decide (c = 46).

(** Lines 166-171. *)
Definition price_of {U : UnicodeData} (soup : Document) : str :=
  let price_el := el_or (estate_price_el soup) (d3_price_el soup) in
  let price := text_or_empty price_el in
  if truthy price then price
  else
    match re_search (py "$") price_char (page_text soup) with
    | Some m => m
    | None => []
    end.

(** [url.rstrip("/").split("/")[-1]]; [None] is the [IndexError] of
    indexing an empty list. *)
Definition external_id_of (url : str) : option str :=
  last (split 47 (rstrip 47 url)).

Definition scrape_listing {U : UnicodeData} (net : transport) (asked : list str)
    (url listing_type : str) : option ListingRecord :=
  match net asked url with
  | None => None
  | Some soup =>
    let title := text_or_empty (el_or (h1_el soup) (title_el soup)) in
    let price := price_of soup in
    let specs := parse_specs soup in
    let details := parse_details soup in
    let location := default [] (details !! py "Localización") in
    let location :=
      if truthy location then location
      else text_or_empty (el_or (d3_location_el soup) (location_el soup)) in
    let published_date := default [] (details !! py "Publicado") in
    let description :=
      text_or_empty (el_or (about_text_el soup) (description_content_el soup)) in
    let images := parse_images soup in
    match external_id_of url with
    | None => None
    | Some external_id =>
      Some {| title := title; price := price; location := location;
              published_date := published_date; listing_type := listing_type;
              url := url; external_id := external_id; specs := specs;
              details := details; description := description;
              images := images |}
    end
  end.

(** ** [main] *)

(** [get_listing_urls] when requests have been made before the call:
    the URLs it returns and the requests made when it returns. *)
Definition get_listing_urls_after (fuel : nat) (net : transport)
    (asked : list str) (base_url : str) (max_listings : Z)
  : option (list str * list str) :=
  st ← paginate fuel net base_url max_listings
         {| urls := []; page := 1%Z; requests := asked |};
  Some (slice_to max_listings (urls st), requests st).

(** The loop [for i, url in enumerate(urls, 1)] of [main]: the list
    [all_listings] and the requests made when it ends. *)
Fixpoint scrape_each {U : UnicodeData} (net : transport) (asked : list str)
    (urls : list str) (listing_type : str) (all_listings : list ListingRecord)
  : list ListingRecord * list str :=
  match urls with
  | [] => (all_listings, asked)
  | url :: rest =>
    let data := scrape_listing net asked url listing_type in
    let all_listings :=
      match data with
      | Some data => all_listings ++ [data]
      | None => all_listings
      end in
    scrape_each net (asked ++ [url]) rest listing_type all_listings
  end.

(** [main]: the list handed to [json.dump]; [None] when one of the
    two calls of [get_listing_urls] does not return within [fuel]
    turns of its loop. *)
Definition main {U : UnicodeData} (fuel : nat) (net : transport)
  : option (list ListingRecord) :=
  '(sale_urls, asked) ← get_listing_urls_after fuel net [] SALE_URL 50;
  let '(all_listings, asked) :=
    scrape_each net asked sale_urls (py "sale") [] in
  '(rent_urls, asked) ← get_listing_urls_after fuel net asked RENT_URL 50;
  let '(all_listings, asked) :=
    scrape_each net asked rent_urls (py "rent") all_listings in
  Some all_listings.

(** ** Notions of the specification *)

(** Order-preserving removal of duplicates in which the first
    occurrence of a value wins and fixes its position. *)
Fixpoint first_occurrences (l : list str) : list str :=
  match l with
  | [] => []
  | x :: t => x :: filter (fun y => y ≠ x) (first_occurrences t)
  end.

(** The absolute form of the usable references of a list of anchors. *)
Definition absolute_hrefs (links : list (option str)) : list str :=
  make_absolute_url <$> filter (fun h => truthy h = true) (omap id links).

(** A URL with nothing but the given character removed from its end. *)
Definition without_trailing (ch : N) (s : str) : str :=
  reverse (lstrip_by (N.eqb ch) (reverse s)).

(** The part of a text after its last separator (the whole text when
    it has none). *)
Definition final_segment (sep : N) (s : str) : str :=
  reverse (take_class (fun c => negb (N.eqb sep c)) (reverse s)).

(** The photo URL pattern as the specification words it: the path ends
    at white space or at a quote character. *)
Definition spec_url_char {U : UnicodeData} (c : N) : bool :=
  negb (is_space c || bool_decide (c = 34) || bool_decide (c = 39)).

(** A currency-prefixed numeric token starts at position [i]. *)
Definition token_at {U : UnicodeData} (text : str) (i : nat) : Prop :=
  text !! i = Some 36 ∧ ∃ c, text !! S i = Some c ∧ price_char c = true.

(** [m] is the first currency-prefixed numeric token of [text]: the
    symbol and the longest run of digits, commas and points after it,
    no token starting further left. *)
Definition first_token {U : UnicodeData} (text m : str) : Prop :=
  ∃ pre run post,
    text = pre ++ 36 :: run ++ post ∧ m = 36 :: run ∧ run ≠ [] ∧
    Forall (fun c => price_char c = true) run ∧
    (∀ c, head post = Some c → price_char c = false) ∧
    ∀ i, (i < length pre)%nat → ¬ token_at text i.

(** No two consecutive backslashes. *)
Fixpoint no_double_backslash (s : str) : bool :=
  match s with
  | [] => true
  | c :: t =>
    negb (bool_decide (c = 92) && bool_decide (head t = Some 92))
    && no_double_backslash t
  end.

(** The requests for [n] consecutive pages of a category, the first of
    them being page [first]. *)
Definition requests_from (base_url : str) (first : Z) (n : nat) : list str :=
  (fun k => page_url base_url (first + Z.of_nat k)) <$> seq 0 n.

(** The requests for the pages 1 to [n]. *)
Definition page_requests (base_url : str) (n : nat) : list str :=
  requests_from base_url 1 n.

(** [u] is the absolute form of a usable reference of an anchor that
    some page of the category showed. *)
Definition from_anchor (net : transport) (base_url u : str) : Prop :=
  ∃ asked page soup href,
    net asked (page_url base_url page) = Some soup
    ∧ Some href ∈ ad_tile_links soup
    ∧ truthy href = true
    ∧ u = make_absolute_url href.

(** What holds of the loop variables of [get_listing_urls] before and
    after every turn. *)
Definition crawl_inv (net : transport) (base_url : str) (max_listings : Z)
    (st : Crawl) : Prop :=
  NoDup (urls st)
  ∧ (Z.of_nat (length (urls st)) <= Z.max 0 max_listings)%Z
  ∧ Forall (from_anchor net base_url) (urls st).

(** What [requests.get] does with a URL that has no scheme: it raises
    (MissingSchema).  A scheme ends with a colon, so a network of this
    kind answers no URL without a colon. *)
Definition needs_scheme (net : transport) : Prop :=
  ∀ asked url, 58 ∉ url → net asked url = None.

(** An absolute URL: the scheme and the host come first. *)
Definition absolute_url (u : str) : bool :=
  startswith (py "http://") u || startswith (py "https://") u.

(** The keys that [parse_specs] may store. *)
Definition SPEC_KEYS : list str :=
  [py "area"; py "bedrooms"; py "bathrooms"; py "parking"; py "price_per_m2"].

(** The source of a gallery image that the first method of
    [parse_images] accepts. *)
Definition gallery_url (img : option str * option str) : option str :=
  let src := attr_or (fst img) (attr_or (snd img) []) in
  if truthy src && (contains PHOTO_HOST src || startswith (py "http") src)
  then Some src else None.

(** The photo URLs in the inline scripts, and in the data attributes. *)
Definition script_urls (soup : Document) : list str :=
  concat ((fun script => re_findall PHOTO_PREFIX script_url_char (attr_or script []))
            <$> scripts soup).

Definition blob_urls (soup : Document) : list str :=
  concat ((fun el : option str * option str * option str =>
             re_findall PHOTO_PREFIX blob_url_char
               (attr_or (fst (fst el)) (attr_or (snd (fst el)) (attr_or (snd el) []))))
            <$> data_blobs soup).

(** ** Sample pages *)

(** A listing page with a bedrooms insight attribute (3) and a bedrooms
    icon tile (4). *)
Definition two_widgets_page : Document := {|
  ad_tile_links := [];
  insight_attributes := [(Some (py "Habitaciones"), Some (py "3"))];
  details_items := [(Some (Some (py "#bed")), Some (py "4"))];
  detail_rows := []; gallery_imgs := []; scripts := []; data_blobs := [];
  h1_el := None; title_el := None; estate_price_el := None;
  d3_price_el := None; page_text := py "Habitaciones34"; d3_location_el := None;
  location_el := None; about_text_el := None; description_content_el := None
|}.

(** Inline scripts that mention photo URLs. *)
Definition quoted_photo_script : str :=
  py "var img = 'https://photos.encuentra24.com/t_or_fh_m/sv/25/01.jpg';".

Definition spaced_photo_script : str :=
  py "see https://photos.encuentra24.com/a.jpg for the front".

(** A listing page whose gallery image has a doubly escaped slash. *)
Definition double_escape_page : Document := {|
  ad_tile_links := []; insight_attributes := []; details_items := [];
  detail_rows := [];
  gallery_imgs := [(Some (py "https://photos.encuentra24.com\\/a.jpg"), None)];
  scripts := []; data_blobs := [];
  h1_el := None; title_el := None; estate_price_el := None;
  d3_price_el := None; page_text := []; d3_location_el := None;
  location_el := None; about_text_el := None; description_content_el := None
|}.

(** A listing page whose only price is in its running text. *)
Definition text_price_page : Document := {|
  ad_tile_links := []; insight_attributes := []; details_items := [];
  detail_rows := []; gallery_imgs := []; scripts := []; data_blobs := [];
  h1_el := Some (py "Casa en venta"); title_el := None;
  estate_price_el := None; d3_price_el := None;
  page_text := py "Casa en venta Precio: $1,250.00 USD";
  d3_location_el := None; location_el := None; about_text_el := None;
  description_content_el := None
|}.

(** A catalog page showing the given anchors. *)
Definition catalog_page (links : list (option str)) : Document := {|
  ad_tile_links := links; insight_attributes := []; details_items := [];
  detail_rows := []; gallery_imgs := []; scripts := []; data_blobs := [];
  h1_el := None; title_el := None; estate_price_el := None;
  d3_price_el := None; page_text := []; d3_location_el := None;
  location_el := None; about_text_el := None; description_content_el := None
|}.

(** Two catalog pages that share an anchor; the first also has an
    anchor without reference, one with an empty reference and one with
    an absolute reference. *)
Definition sample_pages : list (list (option str)) :=
  [ [Some (py "/el-salvador-es/casa-1"); None; Some [];
     Some (py "https://www.encuentra24.com/el-salvador-es/casa-2")];
    [Some (py "/el-salvador-es/casa-1"); Some (py "/el-salvador-es/casa-3")] ].

(** A listing page with a details table of two rows; the text of a
    row is the text of its label followed by the text of its value. *)
Definition details_page : Document := {|
  ad_tile_links := []; insight_attributes := []; details_items := [];
  detail_rows := [(Some (py "Localización"), py "LocalizaciónSan Salvador");
                  (Some (py "Publicado"), py "Publicado 12/03/2024 ")];
  gallery_imgs := []; scripts := []; data_blobs := [];
  h1_el := None; title_el := None; estate_price_el := None;
  d3_price_el := None; page_text := []; d3_location_el := Some (py "Centro");
  location_el := None; about_text_el := None; description_content_el := None
|}.

(** A listing page with a gallery image and an inline script. *)
Definition gallery_script_page : Document := {|
  ad_tile_links := []; insight_attributes := []; details_items := [];
  detail_rows := [];
  gallery_imgs := [(Some (py "https://photos.encuentra24.com\/a.jpg"), None)];
  scripts := [Some quoted_photo_script]; data_blobs := [];
  h1_el := None; title_el := None; estate_price_el := None;
  d3_price_el := None; page_text := []; d3_location_el := None;
  location_el := None; about_text_el := None; description_content_el := None
|}.

(** A network that serves the same page for every URL with a scheme
    and fails for the others. *)
Definition scheme_net (soup : Document) : transport :=
  fun _ url => if bool_decide (58 ∈ url) then Some soup else None.

(** A network that serves the same page whatever is asked. *)
Definition constant_net (soup : Document) : transport := fun _ _ => Some soup.

(** A catalog of numbered pages: the k-th request is answered by the
    k-th entry, [None] being a failed request; requests beyond the
    table fail. *)
Definition scripted_net (pages : list (option (list (option str)))) : transport :=
  fun asked _ =>
    match pages !! length asked with
    | Some (Some links) => Some (catalog_page links)
    | _ => None
    end.

(** A catalog of one page whose only anchor has a relative reference
    that starts with the letters http. *)
Definition http_relative_net : transport :=
  scripted_net [Some [Some (py "httpdocs/casa-1.html")]; Some []].

(** A run of [main]: a sale catalog of one page with one listing, whose
    page is served, and a rent catalog that cannot be reached. *)
Definition one_sale_net : transport :=
  scripted_net [Some [Some (py "/el-salvador-es/casa-1")]; Some []; Some []; None].

(** * Properties *)

(** ** Text *)

Lemma startswith_app (p s : str) : startswith p (p ++ s) = true.
Proof.
  induction p as [|a p IH]; simpl; [done|].
  by rewrite decide_True.
Qed.

Lemma startswith_spec (p s : str) :
  startswith p s = true ↔ ∃ t, s = p ++ t.
Proof.
  split.
  - revert s. induction p as [|a p IH]; intros s H; simpl in *.
    + by exists s.
    + destruct s as [|b s]; [done|].
      case_decide; [|done]. subst b.
      destruct (IH _ H) as [t ->]. by exists t.
  - intros [t ->]. apply startswith_app.
Qed.

(** ** [make_absolute_url] *)

Lemma base_url_http (href : str) :
  startswith (py "http") (BASE_URL ++ href) = true.
Proof. reflexivity. Qed.

Lemma make_absolute_url_http (href : str) :
  startswith (py "http") (make_absolute_url href) = true.
Proof.
  unfold make_absolute_url.
  destruct (startswith (py "http") href) eqn:E; [done|apply base_url_http].
Qed.

(** C10: [make_absolute_url] is idempotent, because its result always
    starts with "http": either the argument already did, or [BASE_URL],
    which starts with "http", was put in front of it. *)
Theorem make_absolute_url_idempotent (href : str) :
  make_absolute_url (make_absolute_url href) = make_absolute_url href
  ∧ startswith (py "http") (make_absolute_url href) = true
  ∧ startswith (py "http") BASE_URL = true.
Proof.
  split; [|split; [apply make_absolute_url_http|reflexivity]].
  unfold make_absolute_url at 1.
  by rewrite make_absolute_url_http.
Qed.

(** ** [external_id] *)

Lemma rstrip_by_snoc (p : N -> bool) (s : str) (c : N) :
  rstrip_by p (s ++ [c]) = if p c then rstrip_by p s else s ++ [c].
Proof.
  induction s as [|a s IH]; simpl.
  - by destruct (p c).
  - rewrite IH. destruct (p c); [done|]. by destruct s.
Qed.

Lemma rstrip_by_reverse (p : N -> bool) (s : str) :
  rstrip_by p s = reverse (lstrip_by p (reverse s)).
Proof.
  induction s as [|c s IH] using rev_ind; [done|].
  rewrite rstrip_by_snoc, reverse_snoc. simpl.
  destruct (p c); [done|].
  by rewrite reverse_cons, reverse_involutive.
Qed.

Lemma lstrip_by_nil (p : N -> bool) (s : str) :
  lstrip_by p s = [] ↔ Forall (fun c => p c = true) s.
Proof.
  induction s as [|c s IH]; simpl.
  - split; [constructor|done].
  - destruct (p c) eqn:E.
    + rewrite IH. split; [by constructor|by inversion 1].
    + split; [done|]. inversion 1; congruence.
Qed.

Lemma lstrip_by_head (p : N -> bool) (s : str) (c : N) (t : str) :
  lstrip_by p s = c :: t → p c = false.
Proof.
  induction s as [|a s IH]; simpl; [done|].
  destruct (p a) eqn:E; [done|]. by intros [= <- _].
Qed.

Lemma take_class_all (cls : N -> bool) (s : str) :
  Forall (fun c => cls c = true) s → take_class cls s = s.
Proof.
  induction 1 as [|c s Hc _ IH]; simpl; [done|]. by rewrite Hc, IH.
Qed.

Lemma take_class_stop (cls : N -> bool) (l : str) (x : N) (r : str) :
  Forall (fun c => cls c = true) l → cls x = false →
  take_class cls (l ++ x :: r) = l.
Proof.
  induction 1 as [|c s Hc _ IH]; simpl; intros Hx.
  - by rewrite Hx.
  - by rewrite Hc, IH.
Qed.

Section Split.
Variable sep : N.

Let other (c : N) : bool := negb (N.eqb sep c).

Lemma split_cases (s : str) :
  (Forall (fun c => other c = true) s ∧ split sep s = [s]) ∨
  (∃ a b first segs,
     s = a ++ sep :: b ∧ Forall (fun c => other c = true) b ∧
     split sep s = first :: segs ∧ last segs = Some b).
Proof.
  induction s as [|c s IH]; [left; by split|].
  simpl. case_decide as Hc.
  - subst c. right.
    destruct IH as [[Hall ->]|(a & b & first & segs & -> & Hb & -> & Hl)].
    + by exists [], s, [], [s].
    + exists (sep :: a), b, [], (first :: segs). repeat split; [done|].
      destruct segs; [done|]. by rewrite last_cons, Hl.
  - destruct IH as [[Hall ->]|(a & b & first & segs & -> & Hb & -> & Hl)].
    + left. split; [|done]. constructor; [|done].
      unfold other. apply negb_true_iff, N.eqb_neq. congruence.
    + right. by exists (c :: a), b, (c :: first), segs.
Qed.

Lemma split_last (s : str) : last (split sep s) = Some (final_segment sep s).
Proof.
  unfold final_segment. fold other.
  destruct (split_cases s) as [[Hall ->]|(a & b & first & segs & -> & Hb & -> & Hl)].
  - simpl. rewrite take_class_all, reverse_involutive; [done|].
    by apply Forall_reverse.
  - destruct segs as [|seg segs]; [done|]. rewrite last_cons, Hl.
    rewrite reverse_app, reverse_cons, <- app_assoc. simpl.
    rewrite take_class_stop, reverse_involutive; [done| |].
    + by apply Forall_reverse.
    + unfold other. by rewrite N.eqb_refl.
Qed.

End Split.

Lemma external_id_of_segment (url : str) :
  external_id_of url = Some (final_segment 47 (without_trailing 47 url)).
Proof.
  unfold external_id_of, rstrip, without_trailing.
  by rewrite split_last, rstrip_by_reverse.
Qed.

Lemma final_segment_trimmed_nil (url : str) :
  final_segment 47 (without_trailing 47 url) = [] ↔ Forall (fun c => c = 47) url.
Proof.
  unfold final_segment, without_trailing. rewrite reverse_involutive.
  destruct (lstrip_by (N.eqb 47) (reverse url)) as [|c t] eqn:E.
  - split; [intros _|done].
    apply lstrip_by_nil in E. apply Forall_reverse in E.
    rewrite reverse_involutive in E.
    eapply Forall_impl; [exact E|]. intros c Hc. by apply N.eqb_eq in Hc.
  - split.
    + pose proof (lstrip_by_head _ _ _ _ E) as Hh.
      cbn [take_class]. cbv beta. rewrite Hh. cbn [negb].
      intros H. apply (f_equal length) in H.
      rewrite length_reverse in H. simpl in H. lia.
    + intros Hall.
      assert (lstrip_by (N.eqb 47) (reverse url) = []) as E'; [|congruence].
      apply lstrip_by_nil, Forall_reverse.
      eapply Forall_impl; [exact Hall|]. intros ? ->. apply N.eqb_refl.
Qed.

Example external_id_plain :
  external_id_of (py "https://www.encuentra24.com/el-salvador-es/casa-venta-123456")
  = Some (py "casa-venta-123456").
Proof. vm_compute. reflexivity. Qed.

Example external_id_trailing_slash :
  external_id_of (py "https://www.encuentra24.com/el-salvador-es/123456/")
  = Some (py "123456").
Proof. vm_compute. reflexivity. Qed.

(** On a text made of slashes only the expression of line 197 gives
    the empty text: nothing is left once the trailing slashes are
    removed.  No record is made for such a url, see
    [external_id_of_record]. *)
Lemma external_id_slash_only :
  py "/" ≠ [] ∧ external_id_of (py "/") = Some [].
Proof. split; [discriminate|vm_compute; reflexivity]. Qed.

Lemma external_id_nonempty_iff (url : str) :
  final_segment 47 (without_trailing 47 url) ≠ [] ↔ ∃ c, c ∈ url ∧ c ≠ 47.
Proof.
  rewrite final_segment_trimmed_nil. split.
  - intros H. apply not_Forall_Exists in H; [|intros c; apply _].
    apply Exists_exists in H. destruct H as (c & Hin & Hc). by exists c.
  - intros (c & Hin & Hc) Hall. rewrite Forall_forall in Hall. auto.
Qed.

(** The expression of line 197 alone: for every url it gives the final
    '/'-separated segment of the url without its trailing slashes
    (taking it never fails), which is non-empty exactly when the url
    has a character other than '/'. *)
Theorem external_id_final_segment (url : str) :
  ∃ id, external_id_of url = Some id
    ∧ id = final_segment 47 (without_trailing 47 url)
    ∧ (id ≠ [] ↔ ∃ c, c ∈ url ∧ c ≠ 47).
Proof.
  eexists. split; [apply external_id_of_segment|]. split; [done|].
  apply external_id_nonempty_iff.
Qed.

(** In particular the id of a URL that starts with "http", as every URL
    returned by [make_absolute_url] does, is never empty. *)
Lemma external_id_http (url : str) :
  startswith (py "http") url = true →
  ∃ id, external_id_of url = Some id ∧ id ≠ [].
Proof.
  intros H. eexists. split; [apply external_id_of_segment|].
  apply external_id_nonempty_iff.
  apply startswith_spec in H. destruct H as [t ->].
  exists 104. split; [|done]. vm_compute. left.
Qed.

(** ** The price *)

Lemma take_class_split (cls : N -> bool) (s : str) :
  ∃ post, s = take_class cls s ++ post
    ∧ Forall (fun c => cls c = true) (take_class cls s)
    ∧ ∀ c, head post = Some c → cls c = false.
Proof.
  induction s as [|a s (post & Hs & Hall & Hpost)]; simpl.
  - exists []. by repeat split.
  - destruct (cls a) eqn:E.
    + exists post. repeat split; [simpl; by f_equal|by constructor|done].
    + exists (a :: s). repeat split; [done|]. by intros c [= <-].
Qed.

Section Price.
Context {U : UnicodeData}.

Lemma token_at_tail (c : N) (t : str) (i : nat) :
  token_at (c :: t) (S i) ↔ token_at t i.
Proof. done. Qed.

Lemma match_here_token (s m : str) :
  match_here (py "$") price_char s = Some m →
  ∃ run post,
    s = 36 :: run ++ post ∧ m = 36 :: run ∧ run ≠ [] ∧
    Forall (fun c => price_char c = true) run ∧
    ∀ c, head post = Some c → price_char c = false.
Proof.
  unfold match_here. change (py "$") with [36].
  destruct s as [|a s]; [done|]. simpl.
  case_decide as Ha; [|done]. subst a. unfold drop.
  destruct (take_class_split price_char s) as (post & Hs & Hall & Hpost).
  destruct (take_class price_char s) as [|r run] eqn:E; [done|].
  intros [= <-]. exists (r :: run), post. by rewrite <- Hs.
Qed.

Lemma match_here_no_token (s : str) :
  match_here (py "$") price_char s = None → ¬ token_at s 0.
Proof.
  unfold match_here. change (py "$") with [36].
  intros H (H0 & c & H1 & Hc).
  destruct s as [|a [|b s]]; [done..|].
  simpl in *. injection H0 as ->. injection H1 as ->.
  rewrite decide_True in H by done. unfold drop in H. simpl in H.
  by rewrite Hc in H.
Qed.

Lemma re_search_first_token (text m : str) :
  re_search (py "$") price_char text = Some m → first_token text m.
Proof.
  induction text as [|a text IH].
  - intros H. by vm_compute in H.
  - simpl. destruct (match_here (py "$") price_char (a :: text)) as [m'|] eqn:E.
    + intros [= ->]. apply match_here_token in E.
      destruct E as (run & post & Hs & Hm & Hne & Hall & Hpost).
      exists [], run, post. repeat split; try done. simpl. lia.
    + intros H. destruct (IH H) as (pre & run & post & Hs & Hm & Hne & Hall & Hpost & Hfirst).
      exists (a :: pre), run, post. rewrite Hs at 1.
      repeat split; try done.
      intros [|i] Hi.
      * by apply match_here_no_token.
      * rewrite token_at_tail. apply Hfirst. simpl in Hi. lia.
Qed.

Lemma re_search_no_token (text : str) :
  re_search (py "$") price_char text = None → ∀ i, ¬ token_at text i.
Proof.
  induction text as [|a text IH]; simpl.
  - intros _ i (H & _). by destruct i.
  - destruct (match_here (py "$") price_char (a :: text)) eqn:E; [done|].
    intros H [|i].
    + by apply match_here_no_token.
    + rewrite token_at_tail. by apply IH.
Qed.

Lemma price_of_fallback (soup : Document) :
  text_or_empty (estate_price_el soup) = [] →
  text_or_empty (d3_price_el soup) = [] →
  (∃ m, first_token (page_text soup) m ∧ price_of soup = m)
  ∨ ((∀ i, ¬ token_at (page_text soup) i) ∧ price_of soup = []).
Proof.
  intros H1 H2. unfold price_of.
  assert (text_or_empty (el_or (estate_price_el soup) (d3_price_el soup)) = [])
    as ->.
  { destruct (estate_price_el soup); [exact H1|exact H2]. }
  simpl. destruct (re_search _ _ _) as [m|] eqn:E.
  - left. exists m. split; [by apply re_search_first_token|done].
  - right. split; [by apply re_search_no_token|done].
Qed.

End Price.

(** ** [scrape_listing] *)

Section Listing.
Context {U : UnicodeData}.
Variable net : transport.

Lemma scrape_listing_fetched (asked : list str) (link kind : str) (soup : Document) :
  net asked link = Some soup →
  ∃ r, scrape_listing net asked link kind = Some r
    ∧ url r = link ∧ listing_type r = kind
    ∧ external_id_of link = Some (external_id r)
    ∧ title r = text_or_empty (el_or (h1_el soup) (title_el soup))
    ∧ price r = price_of soup
    ∧ specs r = parse_specs soup
    ∧ details r = parse_details soup
    ∧ published_date r = default [] (parse_details soup !! py "Publicado")
    ∧ description r
      = text_or_empty (el_or (about_text_el soup) (description_content_el soup))
    ∧ images r = parse_images soup.
Proof.
  intros Hnet. unfold scrape_listing. rewrite Hnet.
  rewrite external_id_of_segment. eexists. split; [reflexivity|].
  by repeat split.
Qed.

(** C4: [scrape_listing] returns [None] exactly when fetching or
    parsing the page fails.  For every page that is fetched and parsed
    the record has all its eleven fields, [specs], [details] and
    [images] being a map, a map and a sequence that may be empty; no
    step fails on missing markup, and on a page where no selector finds
    anything every extracted field is empty. *)
Theorem scrape_listing_none_iff (asked : list str) (link kind : str) :
  (scrape_listing net asked link kind = None ↔ net asked link = None)
  ∧ (∀ soup, net asked link = Some soup →
       ∃ r, scrape_listing net asked link kind = Some r
         ∧ url r = link ∧ listing_type r = kind
         ∧ external_id_of link = Some (external_id r)
         ∧ specs r = parse_specs soup
         ∧ details r = parse_details soup
         ∧ images r = parse_images soup)
  ∧ (net asked link = Some blank_page →
       ∃ r, scrape_listing net asked link kind = Some r
         ∧ title r = [] ∧ price r = [] ∧ location r = []
         ∧ published_date r = [] ∧ description r = []
         ∧ specs r = ∅ ∧ details r = ∅ ∧ images r = []).
Proof.
  split; [|split].
  - split.
    + destruct (net asked link) as [soup|] eqn:E; [|done].
      destruct (scrape_listing_fetched asked link kind soup E) as (r & -> & _).
      done.
    + intros E. unfold scrape_listing. by rewrite E.
  - intros soup E.
    destruct (scrape_listing_fetched asked link kind soup E)
      as (r & Hr & ? & ? & ? & ? & ? & ? & ? & ? & ? & ?).
    exists r. by repeat split.
  - intros E. unfold scrape_listing. rewrite E.
    rewrite external_id_of_segment. eexists. split; [reflexivity|].
    by repeat split.
Qed.

(** C9: when neither price selector yields non-empty text, the price of
    the record is the first currency-prefixed numeric token of the
    rendered text of the page (the symbol followed by the longest run
    of digits, commas and points), and it is empty when the text has no
    such token. *)
Theorem price_regex_fallback (asked : list str) (link kind : str)
    (soup : Document) (r : ListingRecord) :
  net asked link = Some soup →
  scrape_listing net asked link kind = Some r →
  text_or_empty (estate_price_el soup) = [] →
  text_or_empty (d3_price_el soup) = [] →
  (∃ m, first_token (page_text soup) m ∧ price r = m)
  ∨ ((∀ i, ¬ token_at (page_text soup) i) ∧ price r = []).
Proof.
  intros Hnet Hr H1 H2.
  destruct (scrape_listing_fetched asked link kind soup Hnet)
    as (r' & Hr' & _ & _ & _ & _ & Hp & _).
  assert (r' = r) as -> by congruence.
  rewrite Hp. by apply price_of_fallback.
Qed.

End Listing.

(** C5: the expression of line 197 gives, for every url, the final
    '/'-separated segment of the url without its trailing slashes, and
    the [external_id] of every record that [scrape_listing] returns is
    that segment of its url and is not empty: a request is answered
    only for a url with a scheme, and such a url is not empty and has
    a character other than the slash. *)
Theorem external_id_of_record {U : UnicodeData} (net : transport)
    (asked : list str) (link kind : str) (r : ListingRecord) :
  needs_scheme net →
  scrape_listing net asked link kind = Some r →
  (∀ u, external_id_of u = Some (final_segment 47 (without_trailing 47 u)))
  ∧ external_id r = final_segment 47 (without_trailing 47 link)
  ∧ external_id r ≠ []
  ∧ link ≠ [].
Proof.
  intros Hnet Hr. split; [apply external_id_of_segment|].
  destruct (net asked link) as [soup|] eqn:E.
  2:{ unfold scrape_listing in Hr. by rewrite E in Hr. }
  destruct (scrape_listing_fetched net asked link kind soup E)
    as (r' & Hr' & _ & _ & Hid & _).
  assert (r' = r) as -> by congruence.
  rewrite external_id_of_segment in Hid. injection Hid as Hid.
  assert (58 ∈ link) as Hcolon.
  { destruct (decide (58 ∈ link)) as [|Hno]; [done|].
    rewrite (Hnet asked link Hno) in E. done. }
  split; [done|]. split.
  - rewrite <- Hid. apply external_id_nonempty_iff. by exists 58.
  - intros ->. by apply elem_of_nil in Hcolon.
Qed.

(** ** [parse_specs] *)

Lemma bed_tile_writes {U : UnicodeData} (specs : gmap str str) (value : str) :
  tile_step specs (Some (Some (py "#bed")), Some value)
  = <[py "bedrooms" := value]> specs.
Proof. reflexivity. Qed.

(** Whatever the first loop stored, a bedrooms tile at the end of the
    second loop decides the value. *)
Lemma tile_pass_writes_last {U : UnicodeData} (soup : Document)
    (items : list (option (option str) * option str)) (value : str) :
  details_items soup = items ++ [(Some (Some (py "#bed")), Some value)] →
  parse_specs soup !! py "bedrooms" = Some value.
Proof.
  intros E. unfold parse_specs. rewrite E, fold_left_app. cbn [fold_left].
  rewrite bed_tile_writes. apply lookup_insert_eq.
Qed.

(** C1: on a page with a bedrooms insight attribute of value 3 and a
    bedrooms icon tile of value 4, the first loop stores 3 and the map
    returned by [parse_specs] holds 4: the second loop assigns without
    looking at what the first one stored. *)
Theorem tile_pass_overwrites_insight :
  insight_pass (U := ascii_unicode) two_widgets_page !! py "bedrooms"
    = Some (py "3")
  ∧ parse_specs (U := ascii_unicode) two_widgets_page !! py "bedrooms"
    = Some (py "4").
Proof. split; vm_compute; reflexivity. Qed.

(** ** Removal of duplicates *)

Lemma filter_all (P : str → Prop) `{!∀ x, Decision (P x)} (l : list str) :
  Forall P l → filter P l = l.
Proof.
  induction 1 as [|y l Hy _ IH]; [done|].
  by rewrite filter_cons_True, IH.
Qed.

Lemma elem_of_first_occurrences (l : list str) (x : str) :
  x ∈ first_occurrences l ↔ x ∈ l.
Proof.
  induction l as [|y l IH]; simpl; [done|].
  rewrite !elem_of_cons, list_elem_of_filter, IH.
  destruct (decide (x = y)); tauto.
Qed.

Lemma NoDup_first_occurrences (l : list str) : NoDup (first_occurrences l).
Proof.
  induction l as [|y l IH]; simpl; [constructor|].
  constructor; [|by apply NoDup_filter].
  rewrite list_elem_of_filter. by intros [H _].
Qed.

Lemma first_occurrences_sublist (l : list str) : first_occurrences l `sublist_of` l.
Proof.
  induction l as [|y l IH]; simpl; [done|].
  apply sublist_skip. etrans; [apply sublist_filter|done].
Qed.

Lemma first_occurrences_filter (P : str → Prop) `{!∀ x, Decision (P x)}
    (l : list str) :
  first_occurrences (filter P l) = filter P (first_occurrences l).
Proof.
  induction l as [|y l IH]; simpl; [done|].
  rewrite !filter_cons. destruct (decide (P y)) as [Hy|Hy]; simpl.
  - rewrite IH. f_equal. rewrite !list_filter_filter.
    apply list_filter_iff. intros x. tauto.
  - rewrite IH, list_filter_filter. apply list_filter_iff.
    intros x. split; [|tauto]. intros Hx. split; [done|congruence].
Qed.

Lemma filter_fixed_or_shorter (P : str → Prop) `{!∀ x, Decision (P x)}
    (l : list str) :
  filter P l = l ∨ (length (filter P l) < length l)%nat.
Proof.
  induction l as [|y l IH]; simpl; [by left|].
  rewrite filter_cons. destruct (decide (P y)); simpl.
  - destruct IH as [->|IH]; [by left|right; lia].
  - right. pose proof (length_filter P l). lia.
Qed.

Lemma first_occurrences_fixed_or_shorter (l : list str) :
  first_occurrences l = l ∨ (length (first_occurrences l) < length l)%nat.
Proof.
  induction l as [|y l IH]; simpl; [by left|].
  destruct (filter_fixed_or_shorter (fun x => x ≠ y) (first_occurrences l))
    as [->|Hf].
  - destruct IH as [->|IH]; [by left|right; lia].
  - right. simpl.
    assert (length (first_occurrences l) ≤ length l)%nat
      by (destruct IH as [->|IH]; lia).
    lia.
Qed.

Lemma first_occurrences_NoDup (l : list str) : NoDup l → first_occurrences l = l.
Proof.
  induction 1 as [|y l Hy _ IH]; simpl; [done|].
  rewrite IH. f_equal. apply filter_all.
  rewrite Forall_forall. intros x Hx ->. done.
Qed.

Lemma append_new_first_occurrences (images photo_urls : list str) :
  append_new images photo_urls
  = images ++ first_occurrences (filter (fun x => x ∉ images) photo_urls).
Proof.
  unfold append_new. revert images.
  induction photo_urls as [|x l IH]; intros images; simpl.
  - by rewrite app_nil_r.
  - rewrite filter_cons. case_decide as Hx.
    + rewrite decide_False by tauto. apply IH.
    + rewrite decide_True by done. rewrite IH, <- app_assoc. simpl.
      do 2 f_equal. rewrite <- first_occurrences_filter, list_filter_filter.
      f_equal. apply list_filter_iff. intros y.
      rewrite elem_of_app, list_elem_of_singleton. tauto.
Qed.

Lemma unique_step_fold (images : list str) (seen : gset str) (acc : list str) :
  seen = list_to_set acc →
  snd (fold_left unique_step images (seen, acc))
  = append_new acc (clean_url <$> images).
Proof.
  revert seen acc. induction images as [|x l IH]; intros seen acc Hs; [done|].
  cbn [fold_left fmap list_fmap]. unfold append_new. cbn [fold_left].
  fold (append_new (if decide (clean_url x ∈ acc) then acc else acc ++ [clean_url x])
          (clean_url <$> l)).
  unfold unique_step at 2.
  destruct (decide (clean_url x ∈ seen)) as [Hin|Hin];
    subst seen; rewrite elem_of_list_to_set in Hin.
  - rewrite decide_True by done. by apply IH.
  - rewrite decide_False by done. apply IH.
    rewrite list_to_set_app_L. simpl.
    by rewrite (right_id_L ∅ (∪)), (comm_L (∪)).
Qed.

Lemma unique_images_first_occurrences (images : list str) :
  unique_images images = first_occurrences (clean_url <$> images).
Proof.
  unfold unique_images. rewrite (unique_step_fold _ ∅ []) by done.
  rewrite append_new_first_occurrences. simpl. f_equal.
  apply filter_all. rewrite Forall_forall. intros x _. apply not_elem_of_nil.
Qed.

Lemma fmap_fixed (f : str → str) (l : list str) :
  f <$> l = l ↔ Forall (fun x => f x = x) l.
Proof.
  induction l as [|x l IH].
  - split; [constructor|done].
  - rewrite fmap_cons, Forall_cons, <- IH. split.
    + by intros [= H1 H2].
    + intros [H1 H2]. by rewrite H1, H2.
Qed.

Lemma unique_images_fixed_iff (out : list str) :
  NoDup out →
  unique_images out = out ↔ Forall (fun u => clean_url u = u) out.
Proof.
  intros Hnd. rewrite unique_images_first_occurrences, <- fmap_fixed. split.
  - intros E.
    destruct (first_occurrences_fixed_or_shorter (clean_url <$> out)) as [E'|Hlt].
    + congruence.
    + rewrite E, length_fmap in Hlt. lia.
  - intros ->. by apply first_occurrences_NoDup.
Qed.

(** ** The inline-script pass of [parse_images] *)

Lemma re_findall_from_matches (lit : str) (cls : N -> bool) (skip : nat) (s : str) :
  Forall (fun m => ∃ run, m = lit ++ run ∧ run ≠ []
                          ∧ Forall (fun c => cls c = true) run)
         (re_findall_from lit cls skip s).
Proof.
  revert skip. induction s as [|c t IH]; intros skip; [constructor|].
  cbn [re_findall_from]. destruct skip as [|k]; [|apply IH].
  destruct (match_here lit cls (c :: t)) as [m|] eqn:E; [|apply IH].
  constructor; [|apply IH].
  unfold match_here in E. destruct (startswith lit (c :: t)); [|done].
  destruct (take_class_split cls (drop (length lit) (c :: t)))
    as (post & _ & Hall & _).
  destruct (take_class cls (drop (length lit) (c :: t))) as [|x run] eqn:Er;
    [done|].
  injection E as <-. by exists (x :: run).
Qed.

(** Every URL that the second method finds is the photo prefix followed
    by characters of its class: it contains no quote and no backslash,
    and no letter s after the prefix. *)
Lemma script_matches_class (script_text : str) :
  Forall (fun m => ∃ run, m = PHOTO_PREFIX ++ run ∧ run ≠ []
                          ∧ Forall (fun c => c ∉ [34; 39; 92; 115]) run)
         (re_findall PHOTO_PREFIX script_url_char script_text).
Proof.
  eapply Forall_impl; [apply re_findall_from_matches|].
  intros m (run & -> & Hne & Hall). exists run. repeat split; [done|].
  eapply Forall_impl; [exact Hall|]. intros c Hc.
  unfold script_url_char in Hc. apply negb_true_iff in Hc.
  by apply bool_decide_eq_false in Hc.
Qed.

(** The second method appends the matches that are not yet in the list,
    each once, in the order in which they are found. *)
Lemma script_step_appends_new (images : list str) (script : option str) :
  script_step images script
  = images ++ first_occurrences
      (filter (fun u => u ∉ images)
         (re_findall PHOTO_PREFIX script_url_char (attr_or script []))).
Proof. apply append_new_first_occurrences. Qed.

(** C2: the pattern of the source stops a photo URL at the letter s and
    runs through white space, where the pattern of the specification
    stops at white space and quotes only. *)
Theorem script_pattern_stops_at_s :
  script_step [] (Some quoted_photo_script)
    = [py "https://photos.encuentra24.com/t_or_fh_m/"]
  ∧ re_findall PHOTO_PREFIX (spec_url_char (U := ascii_unicode)) quoted_photo_script
    = [py "https://photos.encuentra24.com/t_or_fh_m/sv/25/01.jpg"]
  ∧ script_step [] (Some spaced_photo_script)
    = [py "https://photos.encuentra24.com/a.jpg for the front"]
  ∧ re_findall PHOTO_PREFIX (spec_url_char (U := ascii_unicode)) spaced_photo_script
    = [py "https://photos.encuentra24.com/a.jpg"].
Proof. repeat split; vm_compute; reflexivity. Qed.

(** ** [str.replace] *)

Lemma contains_unfold (p s : str) :
  contains p s
  = startswith p s || match s with [] => false | _ :: t => contains p t end.
Proof. by destruct s. Qed.

Lemma contains_tail (p : str) (c : N) (t : str) :
  contains p t = true → contains p (c :: t) = true.
Proof. intros H. rewrite contains_unfold, H. apply orb_true_r. Qed.

Lemma contains_drop (p : str) (k : nat) (s : str) :
  contains p (drop k s) = true → contains p s = true.
Proof.
  revert s. induction k as [|k IH]; intros s; [done|].
  destruct s as [|c t]; [done|]. intros H. by apply contains_tail, IH.
Qed.

Lemma no_double_backslash_drop (k : nat) (s : str) :
  no_double_backslash s = true → no_double_backslash (drop k s) = true.
Proof.
  revert s. induction k as [|k IH]; intros s; [done|].
  destruct s as [|c t]; [done|]. simpl.
  intros [_ H]%andb_true_iff. by apply IH.
Qed.

Section Replace.
Variables old new : str.
Hypothesis old_nonempty : old ≠ [].

Lemma replace_from_skip (k : nat) (s : str) :
  replace_from old new k s = replace old new (drop k s).
Proof.
  revert k. induction s as [|c t IH]; intros k; [by destruct k|].
  destruct k as [|k]; [done|]. simpl. apply IH.
Qed.

Lemma replace_match (s : str) :
  startswith old s = true →
  replace old new s = new ++ replace old new (drop (length old) s).
Proof.
  destruct s as [|c t]; [by destruct old|].
  intros H. unfold replace at 1. cbn [replace_from]. rewrite H.
  rewrite replace_from_skip. by destruct old.
Qed.

Lemma replace_pass (c : N) (t : str) :
  startswith old (c :: t) = false →
  replace old new (c :: t) = c :: replace old new t.
Proof. intros H. unfold replace at 1. cbn [replace_from]. by rewrite H. Qed.

(** Induction following the occurrences that [replace] finds. *)
Lemma replace_ind (P : str → str → Prop) :
  P [] [] →
  (∀ s, startswith old s = true →
        P (drop (length old) s) (replace old new (drop (length old) s)) →
        P s (new ++ replace old new (drop (length old) s))) →
  (∀ c t, startswith old (c :: t) = false →
          P t (replace old new t) → P (c :: t) (c :: replace old new t)) →
  ∀ s, P s (replace old new s).
Proof.
  intros Hnil Hmatch Hpass s.
  remember (length s) as n eqn:Hn. revert s Hn.
  induction n as [n IH] using lt_wf_ind. intros s ->.
  destruct s as [|c t]; [done|].
  destruct (startswith old (c :: t)) eqn:E.
  - rewrite replace_match by done. apply Hmatch; [done|].
    eapply IH; [|done]. rewrite length_drop. simpl.
    destruct old; [done|simpl; lia].
  - rewrite replace_pass by done. apply Hpass; [done|].
    eapply IH; [|done]. simpl. lia.
Qed.

Lemma replace_absent (s : str) :
  contains old s = false → replace old new s = s.
Proof.
  apply (replace_ind (fun s r => contains old s = false → r = s)); [done|..].
  - intros s' H _. rewrite contains_unfold, H. by rewrite orb_true_l.
  - intros c t _ IH H. rewrite contains_unfold in H.
    apply orb_false_iff in H as [_ H]. f_equal. by apply IH.
Qed.

End Replace.

Section ReplaceChar.
Variable old : str.
Variable n : N.
Hypothesis old_nonempty : old ≠ [].

Lemma replace_head (s : str) (x : N) (rest : str) :
  replace old [n] s = x :: rest → x ≠ n →
  ∃ t, s = x :: t ∧ rest = replace old [n] t.
Proof.
  destruct s as [|c t]; [done|].
  destruct (startswith old (c :: t)) eqn:E.
  - rewrite replace_match by done. by intros [= <- _].
  - rewrite replace_pass by done. intros [= <- <-] _. by exists t.
Qed.

Lemma startswith_replace (p s : str) :
  n ∉ p → startswith p (replace old [n] s) = true → startswith p s = true.
Proof.
  revert s. induction p as [|a p IH]; intros s Hn; [done|].
  destruct (replace old [n] s) as [|x rest] eqn:E; [done|].
  simpl. case_decide as Hx; [|done]. subst x. intros H.
  destruct (replace_head _ _ _ E) as (t & -> & ->).
  { intros ->. apply Hn. left. }
  simpl. rewrite decide_True by done. apply IH; [|done].
  intros Hin. apply Hn. by right.
Qed.

Lemma startswith_cons_replace (p : str) (c : N) (t : str) :
  n ∉ p → startswith p (c :: replace old [n] t) = true →
  startswith p (c :: t) = true.
Proof.
  destruct p as [|a p]; [done|]. intros Hn. simpl.
  case_decide; [|done]. apply startswith_replace.
  intros Hin. apply Hn. by right.
Qed.

Lemma startswith_replaced (p : str) (r : str) :
  p ≠ [] → n ∉ p → startswith p (n :: r) = false.
Proof.
  destruct p as [|a p]; [done|]. intros _ Hn. simpl.
  rewrite decide_False; [done|]. intros ->. apply Hn. left.
Qed.

(** After the replacement no occurrence of [old] is left, when the
    replacement character is not one of its characters. *)
Lemma contains_replace_old (s : str) :
  n ∉ old → contains old (replace old [n] s) = false.
Proof.
  intros Hn.
  apply (replace_ind old [n] old_nonempty (fun _ r => contains old r = false)).
  - by destruct old.
  - intros s' _ IH. simpl. rewrite IH.
    by rewrite startswith_replaced.
  - intros c t E IH. rewrite contains_unfold, IH, orb_false_r.
    destruct (startswith old (c :: replace old [n] t)) eqn:E'; [|done].
    apply startswith_cons_replace in E'; [congruence|done].
Qed.

(** The replacement creates no occurrence of a text that does not
    contain the replacement character. *)
Lemma contains_replace_other (p s : str) :
  n ∉ p → contains p (replace old [n] s) = true → contains p s = true.
Proof.
  intros Hn. destruct (decide (p = [])) as [->|Hp]; [by destruct s|].
  apply (replace_ind old [n] old_nonempty
           (fun s r => contains p r = true → contains p s = true)); [done|..].
  - intros s' _ IH. simpl. rewrite startswith_replaced by done. simpl.
    intros H. eapply contains_drop, IH, H.
  - intros c t E IH. rewrite (contains_unfold p (c :: _)).
    intros [H|H]%orb_true_iff.
    + rewrite contains_unfold. apply startswith_cons_replace in H; [|done].
      by rewrite H.
    + by apply contains_tail, IH.
Qed.

Lemma no_double_backslash_replace (s : str) :
  n ≠ 92 → no_double_backslash s = true →
  no_double_backslash (replace old [n] s) = true.
Proof.
  intros Hn.
  apply (replace_ind old [n] old_nonempty
           (fun s r => no_double_backslash s = true → no_double_backslash r = true));
    [done|..].
  - intros s' _ IH H. simpl. rewrite bool_decide_eq_false_2 by done. simpl.
    by apply IH, no_double_backslash_drop.
  - intros c t _ IH. simpl. intros [H1 H2]%andb_true_iff.
    rewrite IH by done. rewrite andb_true_r.
    apply negb_true_iff, andb_false_iff.
    apply negb_true_iff, andb_false_iff in H1.
    destruct H1 as [H1|H1]; [by left|right].
    apply bool_decide_eq_false. apply bool_decide_eq_false in H1.
    intros Hh. apply H1.
    destruct (replace old [n] t) as [|x rest] eqn:E; [done|].
    injection Hh as ->.
    by destruct (replace_head _ _ _ E) as (t' & -> & _).
Qed.

End ReplaceChar.

(** ** [parse_images]: normalisation and uniqueness *)

Lemma escaped_slash_nonempty : py "\/" ≠ [].
Proof. discriminate. Qed.

Lemma unicode_escape_nonempty : py "\u002F" ≠ [].
Proof. discriminate. Qed.

Lemma slash_not_in_unicode_escape : 47 ∉ py "\u002F".
Proof.
  change (py "\u002F") with [92; 117; 48; 48; 50; 70].
  by rewrite !elem_of_cons, elem_of_nil; intros [|[|[|[|[|[|]]]]]].
Qed.

(** Without doubled backslashes, replacing the escaped slashes leaves
    no escaped slash behind. *)
Lemma contains_escaped_slash_replaced (s : str) :
  no_double_backslash s = true →
  contains (py "\/") (replace (py "\/") (py "/") s) = false.
Proof.
  apply (replace_ind (py "\/") (py "/") escaped_slash_nonempty
    (fun s r => no_double_backslash s = true → contains (py "\/") r = false));
    [done|..].
  - intros s' _ IH H. specialize (IH (no_double_backslash_drop _ _ H)).
    change (py "/") with [47] in *. cbn [app].
    rewrite contains_unfold, IH. reflexivity.
  - intros c t E IH H. rewrite contains_unfold.
    pose proof H as H'. simpl in H'. apply andb_true_iff in H' as [Hc Ht].
    rewrite (IH Ht), orb_false_r.
    change (py "\/") with [92; 47] in *.
    destruct (replace [92; 47] (py "/") t) as [|x rest] eqn:Er.
    + simpl. by destruct (decide (92 = c)).
    + simpl. destruct (decide (92 = c)) as [<-|]; [|done].
      destruct (decide (47 = x)) as [<-|]; [|done]. exfalso.
      destruct t as [|d t']; [done|].
      destruct (startswith [92; 47] (d :: t')) eqn:Ed.
      * simpl in Ed. destruct (decide (92 = d)) as [<-|]; [|done].
        by vm_compute in Hc.
      * rewrite replace_pass in Er by done. injection Er as -> _.
        by vm_compute in E.
Qed.

(** A raw URL without doubled backslashes is normalised in one go. *)
Lemma clean_url_fixed (img : str) :
  no_double_backslash img = true → clean_url (clean_url img) = clean_url img.
Proof.
  intros H. unfold clean_url at 1.
  assert (contains (py "\u002F") (clean_url img) = false) as H1.
  { unfold clean_url. change (py "/") with [47].
    destruct (contains _ (replace (py "\/") _ _)) eqn:E; [|done].
    apply contains_replace_other in E.
    - rewrite contains_replace_old in E; [done|apply unicode_escape_nonempty|].
      apply slash_not_in_unicode_escape.
    - apply escaped_slash_nonempty.
    - apply slash_not_in_unicode_escape. }
  rewrite (replace_absent _ _ unicode_escape_nonempty _ H1).
  apply replace_absent; [apply escaped_slash_nonempty|].
  unfold clean_url. apply contains_escaped_slash_replaced.
  by apply no_double_backslash_replace;
    [apply unicode_escape_nonempty|discriminate|].
Qed.

Example unique_images_escaped :
  unique_images [py "https://photos.encuentra24.com/a.jpg";
                 py "https://photos.encuentra24.com\/a.jpg";
                 py "https://photos.encuentra24.com/b.jpg"]
  = [py "https://photos.encuentra24.com/a.jpg";
     py "https://photos.encuentra24.com/b.jpg"].
Proof. vm_compute. reflexivity. Qed.

(** A gallery image whose slash is escaped twice comes out with one
    escape left, so that normalising and deduplicating the returned
    sequence once more changes it. *)
Lemma parse_images_not_idempotent :
  parse_images double_escape_page = [py "https://photos.encuentra24.com\/a.jpg"]
  ∧ unique_images (parse_images double_escape_page)
    = [py "https://photos.encuentra24.com/a.jpg"]
  ∧ unique_images (parse_images double_escape_page)
    ≠ parse_images double_escape_page.
Proof. repeat split; vm_compute; [reflexivity..|discriminate]. Qed.

(** C3 (amended): the sequence returned by [parse_images] has no
    duplicate, and it is the raw URLs, each normalised once, with the
    first occurrence of every value kept at its position.  Normalising
    and deduplicating the returned sequence again gives the same
    sequence exactly when every returned URL is unchanged by the
    normalisation, which is the case when no raw URL has two
    consecutive backslashes. *)
Theorem parse_images_unique_ordered (soup : Document) :
  NoDup (parse_images soup)
  ∧ parse_images soup = first_occurrences (clean_url <$> harvest_images soup)
  ∧ (unique_images (parse_images soup) = parse_images soup
     ↔ Forall (fun u => clean_url u = u) (parse_images soup))
  ∧ (Forall (fun u => no_double_backslash u = true) (harvest_images soup) →
     unique_images (parse_images soup) = parse_images soup).
Proof.
  assert (NoDup (parse_images soup)) as Hnd.
  { unfold parse_images. rewrite unique_images_first_occurrences.
    apply NoDup_first_occurrences. }
  split; [done|]. split; [apply unique_images_first_occurrences|].
  split; [by apply unique_images_fixed_iff|].
  intros Hraw. apply unique_images_fixed_iff; [done|].
  unfold parse_images. rewrite unique_images_first_occurrences.
  rewrite Forall_forall. intros u Hu.
  apply elem_of_first_occurrences, list_elem_of_fmap in Hu.
  destruct Hu as (raw & -> & Hin).
  rewrite Forall_forall in Hraw. by apply clean_url_fixed, Hraw.
Qed.

(** ** [get_listing_urls] *)

Lemma make_absolute_url_cases (href : str) :
  (startswith (py "http") href = true ∧ make_absolute_url href = href)
  ∨ (startswith (py "http") href = false
     ∧ make_absolute_url href = BASE_URL ++ href).
Proof.
  unfold make_absolute_url.
  destruct (startswith (py "http") href); [by left|by right].
Qed.

Lemma collect_links_inv (max_listings : Z) (links : list (option str))
    (urls : list str) :
  NoDup urls → (Z.of_nat (length urls) < max_listings)%Z →
  NoDup (collect_links max_listings links urls)
  ∧ (Z.of_nat (length (collect_links max_listings links urls)) <= max_listings)%Z
  ∧ ∀ u, u ∈ collect_links max_listings links urls →
      u ∈ urls ∨ ∃ href, Some href ∈ links ∧ truthy href = true
                         ∧ u = make_absolute_url href.
Proof.
  revert urls. induction links as [|link links IH]; intros urls Hnd Hlen.
  - simpl. repeat split; [done|lia|]. by left.
  - assert (∀ u, (u ∈ urls ∨ ∃ href, Some href ∈ links ∧ truthy href = true
                                     ∧ u = make_absolute_url href) →
                 u ∈ urls ∨ ∃ href, Some href ∈ link :: links ∧ truthy href = true
                                     ∧ u = make_absolute_url href) as Hweak.
    { intros u [H|(href & H1 & H2)]; [by left|right].
      exists href. split; [by right|done]. }
    simpl. destruct link as [href|].
    2:{ destruct (IH urls Hnd Hlen) as (? & ? & Hin). repeat split; auto. }
    destruct (truthy href) eqn:Ht.
    2:{ destruct (IH urls Hnd Hlen) as (? & ? & Hin). repeat split; auto. }
    case_decide as Hold.
    { destruct (IH urls Hnd Hlen) as (? & ? & Hin). repeat split; auto. }
    assert (NoDup (urls ++ [make_absolute_url href])) as Hnd'.
    { apply NoDup_app. repeat split; [done| |apply NoDup_singleton].
      intros x Hx ->%list_elem_of_singleton. done. }
    assert (∀ u, u ∈ urls ++ [make_absolute_url href] →
                 u ∈ urls ∨ ∃ href0, Some href0 ∈ Some href :: links
                   ∧ truthy href0 = true ∧ u = make_absolute_url href0) as Hnew.
    { intros u [H | ->%list_elem_of_singleton]%elem_of_app; [by left|right].
      exists href. split; [left|done]. }
    destruct (Z.of_nat (length (urls ++ [make_absolute_url href])) >=? max_listings)%Z
      eqn:Hfull.
    + repeat split; [done| |done].
      rewrite length_app in *. simpl in *. lia.
    + destruct (IH _ Hnd') as (? & ? & Hin); [lia|].
      repeat split; [done..|].
      intros u Hu. destruct (Hin u Hu) as [H'|H']; [by apply Hnew|].
      destruct H' as (href0 & H1 & H2). right. exists href0.
      split; [by right|done].
Qed.

Lemma absolute_hrefs_none (links : list (option str)) :
  absolute_hrefs (None :: links) = absolute_hrefs links.
Proof. done. Qed.

Lemma absolute_hrefs_some (href : str) (links : list (option str)) :
  absolute_hrefs (Some href :: links)
  = if truthy href then make_absolute_url href :: absolute_hrefs links
    else absolute_hrefs links.
Proof.
  unfold absolute_hrefs. cbn [omap list_omap id]. rewrite filter_cons.
  destruct (truthy href); by case_decide.
Qed.

Lemma absolute_hrefs_app (l1 l2 : list (option str)) :
  absolute_hrefs (l1 ++ l2) = absolute_hrefs l1 ++ absolute_hrefs l2.
Proof. unfold absolute_hrefs. by rewrite omap_app, filter_app, fmap_app. Qed.

Lemma append_new_cons (images : list str) (x : str) (l : list str) :
  append_new images (x :: l)
  = append_new (if decide (x ∈ images) then images else images ++ [x]) l.
Proof. done. Qed.

Lemma append_new_app (images l1 l2 : list str) :
  append_new images (l1 ++ l2) = append_new (append_new images l1) l2.
Proof. apply fold_left_app. Qed.

Lemma append_new_length (images l : list str) :
  (length images ≤ length (append_new images l))%nat.
Proof. rewrite append_new_first_occurrences, length_app. lia. Qed.

Lemma append_new_nil (l : list str) : append_new [] l = first_occurrences l.
Proof.
  rewrite append_new_first_occurrences. simpl. f_equal.
  apply filter_all. rewrite Forall_forall. intros x _. apply not_elem_of_nil.
Qed.

(** While the target is out of reach the inner loop never breaks. *)
Lemma collect_links_below (max_listings : Z) (links : list (option str))
    (urls : list str) :
  (Z.of_nat (length (append_new urls (absolute_hrefs links))) < max_listings)%Z →
  collect_links max_listings links urls = append_new urls (absolute_hrefs links).
Proof.
  revert urls. induction links as [|[href|] links IH]; intros urls; [done| |].
  - rewrite absolute_hrefs_some. cbn [collect_links].
    destruct (truthy href); [|apply IH].
    rewrite append_new_cons. case_decide; [apply IH|].
    intros Hlt. pose proof (append_new_length
      (urls ++ [make_absolute_url href]) (absolute_hrefs links)) as Hle.
    destruct (_ >=? _)%Z eqn:E; [lia|]. by apply IH.
  - rewrite absolute_hrefs_none. apply IH.
Qed.

Lemma requests_from_succ (base_url : str) (first : Z) (n : nat) :
  requests_from base_url first (S n)
  = page_url base_url first :: requests_from base_url (first + 1) n.
Proof.
  unfold requests_from. cbn [seq fmap list_fmap]. rewrite Z.add_0_r. f_equal.
  rewrite <- fmap_S_seq, <- list_fmap_compose. apply list_fmap_ext.
  intros _ k _. simpl. f_equal. lia.
Qed.

Section Paginator.
Variable net : transport.
Variable base_url : str.
Variable max_listings : Z.

Local Abbreviation inv := (crawl_inv net base_url max_listings).

Lemma paginate_zero (st : Crawl) :
  paginate 0 net base_url max_listings st
  = if (Z.of_nat (length (urls st)) <? max_listings)%Z then None else Some st.
Proof. reflexivity. Qed.

(** One turn of the loop. *)
Lemma paginate_succ (fuel : nat) (st : Crawl) :
  paginate (S fuel) net base_url max_listings st
  = if (Z.of_nat (length (urls st)) <? max_listings)%Z then
      let url := page_url base_url (page st) in
      let stop := {| urls := urls st; page := page st;
                     requests := requests st ++ [url] |} in
      match net (requests st) url with
      | None => Some stop
      | Some soup =>
        if decide (ad_tile_links soup = []) then Some stop
        else paginate fuel net base_url max_listings
               {| urls := collect_links max_listings (ad_tile_links soup) (urls st);
                  page := (page st + 1)%Z;
                  requests := requests st ++ [url] |}
      end
    else Some st.
Proof.
  cbn [paginate]. destruct (_ <? _)%Z; [|done].
  destruct (net _ _) as [soup|]; [|done]. cbv zeta.
  by destruct (ad_tile_links soup).
Qed.

Lemma paginate_inv (fuel : nat) (st r : Crawl) :
  paginate fuel net base_url max_listings st = Some r →
  inv st → inv r.
Proof.
  revert st. induction fuel as [|fuel IH]; intros st.
  - rewrite paginate_zero. destruct (_ <? _)%Z; [done|]. by intros [= <-].
  - rewrite paginate_succ.
    destruct (Z.of_nat (length (urls st)) <? max_listings)%Z eqn:Hlt.
    2:{ by intros [= <-]. }
    apply Z.ltb_lt in Hlt. cbv zeta.
    destruct (net (requests st) (page_url base_url (page st))) as [soup|] eqn:Hnet.
    2:{ by intros [= <-]. }
    case_decide as Hlinks.
    { by intros [= <-]. }
    intros Hr (Hnd & Hlen & Hfrom). apply (IH _ Hr).
    destruct (collect_links_inv max_listings (ad_tile_links soup) (urls st) Hnd Hlt)
      as (Hnd' & Hlen' & Hin).
    repeat split; [done|cbn [urls]; lia|].
    cbn [urls]. rewrite Forall_forall. intros u Hu.
    destruct (Hin u Hu) as [H|(href & H1 & H2 & ->)].
    + rewrite Forall_forall in Hfrom. by apply Hfrom.
    + by exists (requests st), (page st), soup, href.
Qed.

Lemma paginate_more_fuel (fuel fuel' : nat) (st r : Crawl) :
  paginate fuel net base_url max_listings st = Some r → (fuel ≤ fuel')%nat →
  paginate fuel' net base_url max_listings st = Some r.
Proof.
  revert fuel' st. induction fuel as [|fuel IH]; intros fuel' st.
  - rewrite paginate_zero. destruct (_ <? _)%Z eqn:E; [done|]. intros [= <-] _.
    destruct fuel'; [rewrite paginate_zero|rewrite paginate_succ]; by rewrite E.
  - rewrite paginate_succ. destruct (_ <? _)%Z eqn:E.
    2:{ intros [= <-] _.
        destruct fuel'; [rewrite paginate_zero|rewrite paginate_succ]; by rewrite E. }
    intros H Hle. destruct fuel' as [|fuel']; [lia|].
    rewrite paginate_succ, E. cbv zeta in *.
    destruct (net _ _) as [soup|]; [|done].
    case_decide; [done|]. apply IH; [done|lia].
Qed.

Lemma slice_to_short (l : list str) :
  (Z.of_nat (length l) <= Z.max 0 max_listings)%Z → slice_to max_listings l = l.
Proof.
  unfold slice_to. intros H. destruct (0 <=? max_listings)%Z eqn:E.
  - apply Z.leb_le in E. apply take_ge. lia.
  - apply Z.leb_gt in E. destruct l; [done|simpl in H; lia].
Qed.

(** Whatever the category, the target count and the answers of the
    network, a sequence returned by [get_listing_urls] has at most
    [max_listings] elements (none when [max_listings] is not positive)
    and no duplicate, and each element starts with "http": it is an
    anchor reference that already did, or [BASE_URL] followed by a
    reference that did not. *)
Theorem get_listing_urls_bounded_unique_absolute (fuel : nat) (result : list str) :
  get_listing_urls fuel net base_url max_listings = Some result →
  (length result ≤ Z.to_nat max_listings)%nat
  ∧ NoDup result
  ∧ Forall (fun u => startswith (py "http") u = true) result
  ∧ Forall (from_anchor net base_url) result
  ∧ ∀ href, startswith (py "http") href = false →
            make_absolute_url href = BASE_URL ++ href.
Proof.
  assert (∀ href, startswith (py "http") href = false →
                  make_absolute_url href = BASE_URL ++ href) as Hrel.
  { intros href H.
    destruct (make_absolute_url_cases href) as [[H' _]|[_ H']]; [congruence|done]. }
  unfold get_listing_urls.
  destruct (paginate fuel net base_url max_listings crawl_start) as [st|] eqn:E;
    [|done].
  cbn [mbind option_bind]. intros [= <-].
  destruct (paginate_inv _ _ _ E) as (Hnd & Hlen & Hfrom).
  { repeat split; [constructor|simpl; lia|constructor]. }
  rewrite slice_to_short by done.
  repeat split; [lia|done| |done..].
  eapply Forall_impl; [exact Hfrom|].
  intros u (_ & _ & _ & href & _ & _ & _ & ->). apply make_absolute_url_http.
Qed.

(** The run of the loop over pages that show anchors, up to a page
    that shows none or cannot be fetched, the target being out of
    reach. *)
Lemma paginate_stops (pages : list (list (option str))) (fuel : nat) (st : Crawl) :
  (Z.of_nat (length (append_new (urls st) (absolute_hrefs (concat pages))))
   < max_listings)%Z →
  (∀ i links, pages !! i = Some links →
     links ≠ [] ∧ ∃ soup,
       net (requests st ++ requests_from base_url (page st) i)
           (page_url base_url (page st + Z.of_nat i)) = Some soup
       ∧ ad_tile_links soup = links) →
  (∀ soup,
     net (requests st ++ requests_from base_url (page st) (length pages))
         (page_url base_url (page st + Z.of_nat (length pages))) = Some soup →
     ad_tile_links soup = []) →
  (length pages < fuel)%nat →
  paginate fuel net base_url max_listings st
  = Some {| urls := append_new (urls st) (absolute_hrefs (concat pages));
            page := (page st + Z.of_nat (length pages))%Z;
            requests := requests st
                        ++ requests_from base_url (page st) (S (length pages)) |}.
Proof.
  revert fuel st. induction pages as [|links pages IH]; intros fuel st Hlt Hpages Hlast Hfuel.
  - destruct fuel as [|fuel]; [simpl in Hfuel; lia|].
    rewrite paginate_succ. cbn [concat] in Hlt.
    change (absolute_hrefs []) with (@nil str) in *.
    change (append_new (urls st) []) with (urls st) in *.
    apply Z.ltb_lt in Hlt. rewrite Hlt. cbv zeta.
    cbn [length] in *. change (requests_from base_url (page st) 0) with (@nil str) in Hlast.
    rewrite app_nil_r, Z.add_0_r in Hlast.
    rewrite requests_from_succ. change (requests_from _ _ 0) with (@nil str).
    rewrite Z.add_0_r.
    destruct (net (requests st) (page_url base_url (page st))) as [soup|] eqn:E;
      [|done].
    by rewrite decide_True by by apply Hlast.
  - destruct fuel as [|fuel]; [simpl in Hfuel; lia|].
    rewrite paginate_succ. cbn [concat] in Hlt.
    rewrite absolute_hrefs_app, append_new_app in Hlt.
    pose proof (append_new_length (append_new (urls st) (absolute_hrefs links))
                  (absolute_hrefs (concat pages))) as Hle1.
    pose proof (append_new_length (urls st) (absolute_hrefs links)) as Hle2.
    assert ((Z.of_nat (length (urls st)) <? max_listings)%Z = true) as ->
      by (apply Z.ltb_lt; lia).
    cbv zeta.
    destruct (Hpages 0%nat links eq_refl) as (Hne & soup & Hnet & Hlinks).
    change (requests_from base_url (page st) 0) with (@nil str) in Hnet.
    rewrite app_nil_r, Z.add_0_r in Hnet. rewrite Hnet, Hlinks.
    rewrite decide_False by done.
    rewrite collect_links_below by lia.
    rewrite IH.
    + cbn [urls page requests concat length].
      rewrite absolute_hrefs_app, append_new_app.
      rewrite (requests_from_succ base_url (page st) (S (length pages))).
      rewrite <- app_assoc. cbn [app]. do 2 f_equal. lia.
    + done.
    + intros i links' Hi. cbn [urls page requests].
      destruct (Hpages (S i) links' Hi) as (Hne' & soup' & Hnet' & Hlinks').
      split; [done|]. exists soup'. split; [|done].
      rewrite requests_from_succ in Hnet'.
      rewrite <- app_assoc. cbn [app]. rewrite <- Hnet'. f_equal. f_equal. lia.
    + intros soup'. cbn [urls page requests length] in *.
      intros Hnet'. apply Hlast.
      rewrite requests_from_succ. rewrite <- app_assoc in Hnet'. cbn [app] in Hnet'.
      rewrite <- Hnet'. f_equal. f_equal. lia.
    + simpl in Hfuel. lia.
Qed.

Lemma page_url_first : page_url base_url 1 = base_url.
Proof. done. Qed.

Lemma page_url_later (n : Z) :
  (1 < n)%Z → page_url base_url n = base_url ++ py "." ++ str_of_int n.
Proof. intros H. unfold page_url. rewrite decide_False; [done|lia]. Qed.

(** The run from the start of [get_listing_urls], in the terms of the two
    functions that read off its result. *)
Lemma get_listing_urls_stops (pages : list (list (option str))) (fuel : nat) :
  (∀ i links, pages !! i = Some links →
     links ≠ [] ∧ ∃ soup,
       net (page_requests base_url i) (page_url base_url (Z.of_nat (S i)))
         = Some soup
       ∧ ad_tile_links soup = links) →
  (∀ soup,
     net (page_requests base_url (length pages))
         (page_url base_url (Z.of_nat (S (length pages)))) = Some soup →
     ad_tile_links soup = []) →
  (Z.of_nat (length (first_occurrences (absolute_hrefs (concat pages))))
   < max_listings)%Z →
  (length pages < fuel)%nat →
  get_listing_urls fuel net base_url max_listings
    = Some (first_occurrences (absolute_hrefs (concat pages)))
  ∧ get_listing_requests fuel net base_url max_listings
    = Some (page_requests base_url (S (length pages))).
Proof.
  intros Hpages Hlast Hlt Hfuel.
  unfold get_listing_urls, get_listing_requests.
  rewrite (paginate_stops pages).
  - cbn [mbind option_bind urls requests crawl_start app].
    rewrite append_new_nil. split; [|done].
    rewrite slice_to_short; [done|lia].
  - cbn [urls crawl_start]. by rewrite append_new_nil.
  - intros i links Hi. cbn [urls page requests crawl_start app].
    replace (1 + Z.of_nat i)%Z with (Z.of_nat (S i)) by lia.
    by apply Hpages.
  - intros soup. cbn [urls page requests crawl_start app].
    replace (1 + Z.of_nat (length pages))%Z with (Z.of_nat (S (length pages)))
      by lia.
    apply Hlast.
  - done.
Qed.

(** C7: when the pages 1 to N-1 show anchors without the target being
    reached and page N shows none, [get_listing_urls] returns the URLs
    of the pages 1 to N-1 in the order in which they were first seen,
    and its requests are those for the pages 1 to N and no other.
    Page 1 is asked for under the base URL itself, a later page under
    the base URL followed by a point and the page number. *)
Theorem pagination_ends_at_empty_page (pages : list (list (option str)))
    (fuel : nat) :
  (∀ i links, pages !! i = Some links →
     links ≠ [] ∧ ∃ soup,
       net (page_requests base_url i) (page_url base_url (Z.of_nat (S i)))
         = Some soup
       ∧ ad_tile_links soup = links) →
  (∃ soup,
     net (page_requests base_url (length pages))
         (page_url base_url (Z.of_nat (S (length pages)))) = Some soup
     ∧ ad_tile_links soup = []) →
  (Z.of_nat (length (first_occurrences (absolute_hrefs (concat pages))))
   < max_listings)%Z →
  (length pages < fuel)%nat →
  get_listing_urls fuel net base_url max_listings
    = Some (first_occurrences (absolute_hrefs (concat pages)))
  ∧ get_listing_requests fuel net base_url max_listings
    = Some (page_requests base_url (S (length pages)))
  ∧ page_url base_url 1 = base_url
  ∧ ∀ n, (1 < n)%Z → page_url base_url n = base_url ++ py "." ++ str_of_int n.
Proof.
  intros Hpages (soup & Hnet & Hnone) Hlt Hfuel.
  destruct (get_listing_urls_stops pages fuel) as [H1 H2]; try done.
  - intros soup' Hnet'. congruence.
  - repeat split; [done..|]. apply page_url_later.
Qed.

(** C8: when the pages 1 to N-1 show anchors without the target being
    reached and the request for page N fails, [get_listing_urls] returns
    normally, with the URLs of the pages 1 to N-1 as they were
    collected; the failed request is the last one of the run, made
    once. *)
Theorem pagination_ends_at_failed_fetch (pages : list (list (option str)))
    (fuel : nat) :
  (∀ i links, pages !! i = Some links →
     links ≠ [] ∧ ∃ soup,
       net (page_requests base_url i) (page_url base_url (Z.of_nat (S i)))
         = Some soup
       ∧ ad_tile_links soup = links) →
  net (page_requests base_url (length pages))
      (page_url base_url (Z.of_nat (S (length pages)))) = None →
  (Z.of_nat (length (first_occurrences (absolute_hrefs (concat pages))))
   < max_listings)%Z →
  (length pages < fuel)%nat →
  get_listing_urls fuel net base_url max_listings
    = Some (first_occurrences (absolute_hrefs (concat pages)))
  ∧ get_listing_requests fuel net base_url max_listings
    = Some (page_requests base_url (length pages)
            ++ [page_url base_url (Z.of_nat (S (length pages)))]).
Proof.
  intros Hpages Hnet Hlt Hfuel.
  destruct (get_listing_urls_stops pages fuel) as [H1 H2]; try done.
  - intros soup' Hnet'. congruence.
  - split; [done|]. rewrite H2. f_equal.
    unfold page_requests, requests_from.
    rewrite seq_S, fmap_app. simpl. do 3 f_equal. lia.
Qed.

End Paginator.

(** C6: a catalog page whose anchor has the relative reference
    httpdocs/casa-1.html.  [make_absolute_url], which by its own
    description converts a relative URL to an absolute one, returns
    this reference as it is, because it starts with the letters http,
    and [get_listing_urls] returns it: an element without scheme and
    host, to which [BASE_URL] was not prepended. *)
Theorem get_listing_urls_http_relative :
  get_listing_urls 2 http_relative_net SALE_URL 50
    = Some [py "httpdocs/casa-1.html"]
  ∧ make_absolute_url (py "httpdocs/casa-1.html") = py "httpdocs/casa-1.html"
  ∧ absolute_url (py "httpdocs/casa-1.html") = false
  ∧ startswith BASE_URL (py "httpdocs/casa-1.html") = false.
Proof. repeat split; vm_compute; reflexivity. Qed.

(** References that do not start with the letters http, and absolute
    http and https references, come out absolute. *)
Lemma make_absolute_url_absolute (href : str) :
  startswith (py "http") href = false ∨ absolute_url href = true →
  absolute_url (make_absolute_url href) = true.
Proof.
  intros [H|H].
  - destruct (make_absolute_url_cases href) as [[H' _]|[_ ->]]; [congruence|].
    reflexivity.
  - destruct (make_absolute_url_cases href) as [[_ ->]|[_ ->]]; [done|reflexivity].
Qed.

(** The loop need not end: a catalog that shows the same single anchor
    on every page never fills a target of two. *)
Lemma paginate_same_anchor (fuel : nat) (st : Crawl) :
  urls st = [make_absolute_url (py "/a")] →
  paginate fuel (constant_net (catalog_page [Some (py "/a")])) (py "b") 2 st = None.
Proof.
  revert st. induction fuel as [|fuel IH]; intros st Hst.
  - rewrite paginate_zero. by rewrite Hst.
  - rewrite paginate_succ. rewrite Hst. simpl. by apply IH.
Qed.

Lemma get_listing_urls_endless (fuel : nat) :
  get_listing_urls fuel (constant_net (catalog_page [Some (py "/a")])) (py "b") 2
  = None.
Proof.
  unfold get_listing_urls. destruct fuel as [|fuel]; [done|].
  rewrite paginate_succ. simpl.
  by rewrite paginate_same_anchor.
Qed.

(** ** The statements at sample inputs *)

(** Two pages of anchors, then a page without anchors. *)
Lemma get_listing_urls_sample :
  get_listing_urls 3 (scripted_net [Some [Some (py "/a"); Some (py "/a")]; Some []])
    SALE_URL 50 = Some [py "https://www.encuentra24.com/a"]
  ∧ (length [py "https://www.encuentra24.com/a"] ≤ Z.to_nat 50)%nat
  ∧ NoDup [py "https://www.encuentra24.com/a"]
  ∧ Forall (fun u => startswith (py "http") u = true)
      [py "https://www.encuentra24.com/a"].
Proof.
  split; [vm_compute; reflexivity|].
  pose proof (get_listing_urls_bounded_unique_absolute
    (scripted_net [Some [Some (py "/a"); Some (py "/a")]; Some []])
    SALE_URL 50 3 [py "https://www.encuentra24.com/a"]) as H.
  destruct H as (H1 & H2 & H3 & _); [vm_compute; reflexivity|].
  exact (conj H1 (conj H2 H3)).
Defined.

Lemma pagination_empty_page_sample :
  get_listing_urls 3
    (scripted_net (Some <$> sample_pages ++ [[]])) SALE_URL 50
  = Some (first_occurrences (absolute_hrefs (concat sample_pages)))
  ∧ get_listing_requests 3
      (scripted_net (Some <$> sample_pages ++ [[]])) SALE_URL 50
    = Some (page_requests SALE_URL 3).
Proof.
  pose proof (pagination_ends_at_empty_page
    (scripted_net (Some <$> sample_pages ++ [[]])) SALE_URL 50 sample_pages 3) as H.
  destruct H as (H1 & H2 & _).
  - intros [|[|i]] links Hi; simpl in Hi; [injection Hi as <-..|discriminate];
      (split; [discriminate|eexists; split; reflexivity]).
  - eexists; split; reflexivity.
  - vm_compute. reflexivity.
  - simpl. lia.
  - exact (conj H1 H2).
Defined.

Lemma pagination_failed_fetch_sample :
  get_listing_urls 3 (scripted_net (Some <$> sample_pages)) RENT_URL 50
  = Some (first_occurrences (absolute_hrefs (concat sample_pages)))
  ∧ get_listing_requests 3 (scripted_net (Some <$> sample_pages)) RENT_URL 50
    = Some (page_requests RENT_URL 2 ++ [page_url RENT_URL 3]).
Proof.
  pose proof (pagination_ends_at_failed_fetch
    (scripted_net (Some <$> sample_pages)) RENT_URL 50 sample_pages 3) as H.
  destruct H as (H1 & H2).
  - intros [|[|i]] links Hi; simpl in Hi; [injection Hi as <-..|discriminate];
      (split; [discriminate|eexists; split; reflexivity]).
  - reflexivity.
  - vm_compute. reflexivity.
  - simpl. lia.
  - exact (conj H1 H2).
Defined.

Lemma price_regex_fallback_sample :
  ∃ r, scrape_listing (U := ascii_unicode) (constant_net text_price_page) []
         (py "https://www.encuentra24.com/el-salvador-es/casa-venta-123456")
         (py "sale") = Some r
    ∧ ((∃ m, first_token (U := ascii_unicode) (page_text text_price_page) m
             ∧ price r = m)
       ∨ ((∀ i, ¬ token_at (U := ascii_unicode) (page_text text_price_page) i)
          ∧ price r = [])).
Proof.
  eexists. split; [reflexivity|].
  apply (price_regex_fallback (U := ascii_unicode) (constant_net text_price_page) []
           (py "https://www.encuentra24.com/el-salvador-es/casa-venta-123456")
           (py "sale") text_price_page); reflexivity.
Defined.

Example price_of_sample :
  price_of (U := ascii_unicode) text_price_page = py "$1,250.00".
Proof. vm_compute. reflexivity. Qed.

(** * Further properties of the extractors *)

(** ** [parse_specs]: keys *)

Section SpecsKeys.
Context {U : UnicodeData}.

Lemma insight_step_cases (specs : gmap str str) (item : option str * option str) :
  insight_step specs item = specs
  ∨ ∃ k label value,
      k ∈ SPEC_KEYS ∧ item = (Some label, Some value)
      ∧ insight_step specs item = <[k := value]> specs.
Proof.
  destruct item as [[label|] [value|]]; [|by left..].
  unfold insight_step.
  repeat (match goal with
          | |- context [if ?b then _ else _] => destruct b
          end;
          [right; eexists _, label, value; split; [|done];
           unfold SPEC_KEYS; rewrite !elem_of_cons; tauto|]).
  by left.
Qed.

Lemma tile_step_cases (specs : gmap str str)
    (item : option (option str) * option str) :
  tile_step specs item = specs
  ∨ ∃ k use_el value,
      k ∈ SPEC_KEYS ∧ k ≠ py "price_per_m2"
      ∧ item = (Some use_el, Some value)
      ∧ tile_step specs item = <[k := value]> specs.
Proof.
  destruct item as [[use_el|] [value|]]; [|by left..].
  unfold tile_step.
  repeat (match goal with
          | |- context [if ?b then _ else _] => destruct b
          end;
          [right; eexists _, use_el, value; split; [|split; [|done]];
           [unfold SPEC_KEYS; rewrite !elem_of_cons; tauto|by vm_compute]|]).
  by left.
Qed.

(** What a loop of single assignments leaves in the map. *)
Lemma fold_assignments {A} (step : gmap str str → A → gmap str str)
    (entry : A → str → str → Prop) (items : list A)
    (specs : gmap str str) (k v : str) :
  (∀ m item, step m item = m
             ∨ ∃ k' v', entry item k' v' ∧ step m item = <[k' := v']> m) →
  fold_left step items specs !! k = Some v →
  specs !! k = Some v ∨ ∃ item, item ∈ items ∧ entry item k v.
Proof.
  intros Hstep. revert specs.
  induction items as [|item items IH]; intros specs; [by left|].
  cbn [fold_left]. intros H. destruct (IH _ H) as [H'|(it & Hin & Hv)].
  - destruct (Hstep specs item) as [E|(k' & v' & Hv' & E)];
      rewrite E in H'; [by left|].
    destruct (decide (k' = k)) as [->|Hne].
    + rewrite lookup_insert_eq in H'. injection H' as ->.
      right. exists item. split; [left|done].
    + rewrite lookup_insert_ne in H' by done. by left.
  - right. exists it. split; [by right|done].
Qed.

Lemma fold_assignments_keeps {A} (step : gmap str str → A → gmap str str)
    (items : list A) (specs : gmap str str) (k : str) :
  (∀ m item, step m item = m ∨ ∃ k' v', step m item = <[k' := v']> m) →
  is_Some (specs !! k) → is_Some (fold_left step items specs !! k).
Proof.
  intros Hstep. revert specs.
  induction items as [|item items IH]; intros specs H; [done|].
  cbn [fold_left]. apply IH.
  destruct (Hstep specs item) as [->|(k' & v' & ->)]; [done|].
  rewrite lookup_insert_is_Some. destruct (decide (k' = k)); auto.
Qed.

Lemma fold_assignments_other {A} (step : gmap str str → A → gmap str str)
    (items : list A) (specs : gmap str str) (k : str) :
  (∀ m item, step m item = m
             ∨ ∃ k' v', k' ≠ k ∧ step m item = <[k' := v']> m) →
  fold_left step items specs !! k = specs !! k.
Proof.
  intros Hstep. revert specs.
  induction items as [|item items IH]; intros specs; [done|].
  cbn [fold_left]. rewrite IH.
  destruct (Hstep specs item) as [->|(k' & v' & Hne & ->)]; [done|].
  by rewrite lookup_insert_ne.
Qed.

(** X1: every entry of the map returned by [parse_specs] has one of the
    five keys area, bedrooms, bathrooms, parking and price_per_m2, and
    its value is the text of the value element of an insight attribute
    or of an icon tile of the page that has both of its elements. *)
Theorem parse_specs_entries (soup : Document) (k v : str) :
  parse_specs soup !! k = Some v →
  k ∈ SPEC_KEYS
  ∧ ((∃ label, (Some label, Some v) ∈ insight_attributes soup)
     ∨ (∃ use_el, (Some use_el, Some v) ∈ details_items soup)).
Proof.
  unfold parse_specs. intros H.
  apply (fold_assignments tile_step
           (fun item k v => k ∈ SPEC_KEYS ∧ ∃ use_el, item = (Some use_el, Some v)))
    in H.
  2:{ intros m item. destruct (tile_step_cases m item)
        as [E|(k' & use_el & v' & Hk & _ & -> & E)]; [by left|right].
      exists k', v'. split; [|done]. split; [done|by exists use_el]. }
  destruct H as [H|(item & Hin & Hk & use_el & ->)].
  - unfold insight_pass in H.
    apply (fold_assignments insight_step
             (fun item k v => k ∈ SPEC_KEYS ∧ ∃ label, item = (Some label, Some v)))
      in H.
    2:{ intros m item. destruct (insight_step_cases m item)
          as [E|(k' & label & v' & Hk & -> & E)]; [by left|right].
        exists k', v'. split; [|done]. split; [done|by exists label]. }
    destruct H as [H|(item & Hin & Hk & label & ->)];
      [by rewrite lookup_empty in H|].
    split; [done|left]. by exists label.
  - split; [done|right]. by exists use_el.
Qed.

(** X2: the second loop of [parse_specs] removes nothing: a key that
    the insight attributes set is still set in the returned map. *)
Theorem parse_specs_keeps_insight_keys (soup : Document) (k : str) :
  is_Some (insight_pass soup !! k) → is_Some (parse_specs soup !! k).
Proof.
  unfold parse_specs. apply fold_assignments_keeps.
  intros m item. destruct (tile_step_cases m item)
    as [E|(k' & use_el & v' & _ & _ & _ & E)]; [by left|right].
  by exists k', v'.
Qed.

(** X3: the icon tiles never decide price_per_m2: the returned map
    holds for this key what the insight attributes stored, or nothing. *)
Theorem parse_specs_price_per_m2 (soup : Document) :
  parse_specs soup !! py "price_per_m2" = insight_pass soup !! py "price_per_m2".
Proof.
  unfold parse_specs. apply fold_assignments_other.
  intros m item. destruct (tile_step_cases m item)
    as [E|(k' & use_el & v' & _ & Hne & _ & E)]; [by left|right].
  by exists k', v'.
Qed.

(** ** [parse_details] *)

Lemma lstrip_by_suffix (p : N -> bool) (s : str) :
  ∃ pre, s = pre ++ lstrip_by p s.
Proof.
  induction s as [|c s [pre IH]]; [by exists []|].
  simpl. destruct (p c); [|by exists []].
  exists (c :: pre). simpl. by f_equal.
Qed.

Lemma rstrip_by_prefix (p : N -> bool) (s : str) :
  ∃ suf, s = rstrip_by p s ++ suf.
Proof.
  rewrite rstrip_by_reverse.
  destruct (lstrip_by_suffix p (reverse s)) as [pre E].
  exists (reverse pre).
  rewrite <- reverse_app, <- E. by rewrite reverse_involutive.
Qed.

Lemma strip_head (p : N -> bool) (s : str) (c : N) :
  head (strip p s) = Some c → p c = false.
Proof.
  unfold strip. destruct (rstrip_by_prefix p (lstrip_by p s)) as [suf E].
  destruct (rstrip_by p (lstrip_by p s)) as [|x t]; [done|].
  intros [= ->]. by apply (lstrip_by_head p s c (t ++ suf)).
Qed.

Lemma strip_last (p : N -> bool) (s : str) (c : N) :
  last (strip p s) = Some c → p c = false.
Proof.
  unfold strip. rewrite rstrip_by_reverse, last_reverse.
  destruct (lstrip_by p (reverse (lstrip_by p s))) as [|x t] eqn:E; [done|].
  intros [= ->]. by apply (lstrip_by_head _ _ _ _ E).
Qed.

Lemma replace_first_prefix (old new rest : str) :
  replace_first old new (old ++ rest) = new ++ rest.
Proof.
  destruct (old ++ rest) as [|c t] eqn:E; simpl; rewrite <- E;
    by rewrite startswith_app, drop_app_length.
Qed.

Lemma detail_step_cases (details : gmap str str) (item : option str * str) :
  detail_step details item = details
  ∨ ∃ label text,
      item = (Some label, text) ∧ label ≠ []
      ∧ strip is_space (replace_first label [] text) ≠ []
      ∧ detail_step details item
        = <[label := strip is_space (replace_first label [] text)]> details.
Proof.
  destruct item as [[label|] text]; [|by left].
  unfold detail_step.
  destruct label as [|c label]; [by left|].
  destruct (strip is_space (replace_first (c :: label) [] text)) eqn:E;
    [by left|].
  right. exists (c :: label), text. by rewrite E.
Qed.

Lemma parse_details_value (soup : Document) (k v : str) :
  parse_details soup !! k = Some v → v ≠ [].
Proof.
  unfold parse_details. intros H.
  apply (fold_assignments detail_step (fun _ _ v => v ≠ [])) in H.
  2:{ intros m item. destruct (detail_step_cases m item)
        as [E|(label & text & -> & Hl & Hv & E)]; [by left|right].
      by eexists _, _. }
  destruct H as [H|(item & _ & Hv)]; [by rewrite lookup_empty in H|done].
Qed.

(** X4: every entry of the map returned by [parse_details] comes from a
    row with a label element: the key is the label, which is not
    empty, and the value is the text of the row without the first
    occurrence of the label, stripped; it is not empty and neither
    starts nor ends with white space. *)
Theorem parse_details_entries (soup : Document) (k v : str) :
  parse_details soup !! k = Some v →
  k ≠ [] ∧ v ≠ []
  ∧ (∀ c, head v = Some c → is_space c = false)
  ∧ (∀ c, last v = Some c → is_space c = false)
  ∧ ∃ text, (Some k, text) ∈ detail_rows soup
            ∧ v = strip is_space (replace_first k [] text).
Proof.
  unfold parse_details. intros H.
  apply (fold_assignments detail_step
           (fun item k v => ∃ text, item = (Some k, text) ∧ k ≠ [] ∧ v ≠ []
                                    ∧ v = strip is_space (replace_first k [] text)))
    in H.
  2:{ intros m item. destruct (detail_step_cases m item)
        as [E|(label & text & -> & Hl & Hv & E)]; [by left|right].
      eexists _, _. split; [|exact E]. by exists text. }
  destruct H as [H|(item & Hin & text & -> & Hk & Hv & ->)];
    [by rewrite lookup_empty in H|].
  repeat split; [done..| | |by exists text].
  - apply strip_head.
  - apply strip_last.
Qed.

(** X5: when the last row of the table has a non-empty label and its
    text is the label followed by more text whose stripped form is not
    empty, the map holds that stripped text under the label; only the
    leading label is removed, also when the rest repeats it. *)
Theorem parse_details_labelled_row (soup : Document)
    (rows : list (option str * str)) (label rest : str) :
  detail_rows soup = rows ++ [(Some label, label ++ rest)] →
  label ≠ [] → strip is_space rest ≠ [] →
  parse_details soup !! label = Some (strip is_space rest).
Proof.
  intros E Hl Hv. unfold parse_details. rewrite E, fold_left_app.
  cbn [fold_left]. unfold detail_step at 1.
  rewrite replace_first_prefix. cbn [app].
  destruct label as [|c label]; [done|].
  destruct (strip is_space rest) as [|x v]; [done|].
  apply lookup_insert_eq.
Qed.

End SpecsKeys.

(** ** [parse_images]: what is harvested *)

Lemma gallery_step_url (images : list str) (img : option str * option str) :
  gallery_step images img
  = images ++ match gallery_url img with Some src => [src] | None => [] end.
Proof.
  unfold gallery_step, gallery_url.
  destruct (truthy _), (contains _ _), (startswith _ _); simpl;
    by rewrite ?app_nil_r.
Qed.

Lemma gallery_fold (imgs : list (option str * option str)) (images : list str) :
  fold_left gallery_step imgs images = images ++ omap gallery_url imgs.
Proof.
  revert images. induction imgs as [|img imgs IH]; intros images.
  - by rewrite app_nil_r.
  - cbn [fold_left omap list_omap]. rewrite IH, gallery_step_url, <- app_assoc.
    by destruct (gallery_url img).
Qed.

Lemma script_fold (l : list (option str)) (images : list str) :
  fold_left script_step l images
  = append_new images
      (concat ((fun script => re_findall PHOTO_PREFIX script_url_char (attr_or script []))
                 <$> l)).
Proof.
  revert images. induction l as [|script l IH]; intros images; [done|].
  cbn [fold_left fmap list_fmap concat]. by rewrite IH, append_new_app.
Qed.

Lemma blob_fold (l : list (option str * option str * option str)) (images : list str) :
  fold_left blob_step l images
  = append_new images
      (concat ((fun el : option str * option str * option str =>
                  re_findall PHOTO_PREFIX blob_url_char
                    (attr_or (fst (fst el))
                       (attr_or (snd (fst el)) (attr_or (snd el) []))))
                 <$> l)).
Proof.
  revert images. induction l as [|[[a b] c] l IH]; intros images; [done|].
  cbn [fold_left fmap list_fmap concat]. by rewrite IH, append_new_app.
Qed.

Lemma harvest_images_parts (soup : Document) :
  harvest_images soup
  = append_new (omap gallery_url (gallery_imgs soup))
      (script_urls soup ++ blob_urls soup).
Proof.
  unfold harvest_images, script_urls, blob_urls.
  by rewrite gallery_fold, script_fold, blob_fold, <- append_new_app.
Qed.

(** X6: the list that [parse_images] builds before it removes
    duplicates is the accepted gallery sources, all of them and in page
    order, followed by the photo URLs of the scripts and then of the
    data attributes that are not among them, each once at its first
    occurrence. *)
Theorem harvest_images_order (soup : Document) :
  harvest_images soup
  = omap gallery_url (gallery_imgs soup)
    ++ first_occurrences
         (filter (fun u => u ∉ omap gallery_url (gallery_imgs soup))
            (script_urls soup ++ blob_urls soup)).
Proof. rewrite harvest_images_parts. apply append_new_first_occurrences. Qed.

Lemma contains_here (p s : str) : startswith p s = true → contains p s = true.
Proof. intros H. by rewrite contains_unfold, H. Qed.

Lemma contains_spec (p s : str) :
  contains p s = true ↔ ∃ pre post, s = pre ++ p ++ post.
Proof.
  split.
  - induction s as [|c s IH]; rewrite contains_unfold.
    + intros [H|H]%orb_true_iff; [|done].
      apply startswith_spec in H as [t ->]. by exists [], t.
    + intros [H|H]%orb_true_iff.
      * apply startswith_spec in H as [t ->]. by exists [], t.
      * destruct (IH H) as (pre & post & ->). by exists (c :: pre), post.
  - intros (pre & post & ->). induction pre as [|c pre IH].
    + apply contains_here. cbn [app]. apply startswith_app.
    + by apply contains_tail.
Qed.

Lemma startswith_app_cases (old a b : str) :
  startswith old (a ++ b) = true →
  startswith old a = true ∨ ∃ h, head b = Some h ∧ h ∈ old.
Proof.
  revert a. induction old as [|o old IH]; intros a; [by left|].
  destruct a as [|c a].
  - destruct b as [|h b]; [done|]. simpl.
    case_decide; [|done]. subst h. intros _. right. exists o. split; [done|left].
  - simpl. case_decide; [|done]. intros Hs.
    destruct (IH a Hs) as [H'|(h & Hh & Hin)]; [by left|right].
    exists h. split; [done|by right].
Qed.

Section ReplaceKeeps.
Variables old new : str.
Hypothesis old_nonempty : old ≠ [].

(** An occurrence of [old] cannot reach into a text whose first
    character is not in [old]. *)
Lemma replace_app (pre rest : str) :
  (∀ h, head rest = Some h → h ∉ old) →
  replace old new (pre ++ rest) = replace old new pre ++ replace old new rest.
Proof.
  intros Hrest.
  apply (replace_ind old new old_nonempty
           (fun pre r => replace old new (pre ++ rest) = r ++ replace old new rest));
    [done|..].
  - intros s Hs IH. apply startswith_spec in Hs as [t ->].
    rewrite drop_app_length in IH |- *. rewrite <- !app_assoc.
    rewrite (replace_match old new old_nonempty (old ++ t ++ rest))
      by apply startswith_app.
    by rewrite drop_app_length, IH.
  - intros c t Hc IH. cbn [app]. rewrite <- IH. apply replace_pass.
    destruct (startswith old (c :: t ++ rest)) eqn:E; [exfalso|done].
    apply (startswith_app_cases old (c :: t) rest) in E.
    destruct E as [E|(h & Hh & Hin)]; [congruence|]. by apply (Hrest h).
Qed.

Lemma replace_passes (p rest : str) :
  (∀ o, head old = Some o → o ∉ p) →
  replace old new (p ++ rest) = p ++ replace old new rest.
Proof.
  intros Ho. induction p as [|c p IH]; [done|].
  cbn [app]. rewrite replace_pass.
  - f_equal. apply IH. intros o Hh Hin. apply (Ho o Hh). by right.
  - destruct old as [|o old']; [done|]. simpl.
    rewrite decide_False; [done|]. intros ->. apply (Ho c eq_refl). left.
Qed.

Lemma startswith_replace_keeps (p s : str) :
  (∀ o, head old = Some o → o ∉ p) →
  startswith p s = true → startswith p (replace old new s) = true.
Proof.
  intros Ho [t ->]%startswith_spec. rewrite replace_passes by done.
  apply startswith_app.
Qed.

Lemma contains_replace_keeps (p s : str) :
  (∀ o, head old = Some o → o ∉ p) →
  (∀ h, head p = Some h → h ∉ old) →
  contains p s = true → contains p (replace old new s) = true.
Proof.
  intros Ho Hh. destruct p as [|h p']; [by rewrite !contains_unfold|].
  intros (pre & post & ->)%contains_spec.
  rewrite replace_app.
  - rewrite replace_passes by done. apply contains_spec. by eexists _, _.
  - cbn [app head]. intros ? [= <-]. by apply Hh.
Qed.

End ReplaceKeeps.

Lemma not_elem_of_compute (c : N) (l : list N) :
  bool_decide (c ∈ l) = false → c ∉ l.
Proof. apply bool_decide_eq_false. Qed.

(** The first character of one closed text does not occur in another. *)
Ltac head_not_in :=
  let o := fresh in
  let H := fresh in
  intros o H; vm_compute in H; injection H as <-;
  apply not_elem_of_compute; vm_compute; reflexivity.

Lemma clean_url_no_unicode_escape (img : str) :
  contains (py "\u002F") (clean_url img) = false.
Proof.
  unfold clean_url. change (py "/") with [47].
  destruct (contains _ (replace (py "\/") _ _)) eqn:E; [|done].
  apply contains_replace_other in E.
  - rewrite contains_replace_old in E; [done|apply unicode_escape_nonempty|].
    apply slash_not_in_unicode_escape.
  - apply escaped_slash_nonempty.
  - apply slash_not_in_unicode_escape.
Qed.

Lemma clean_url_keeps_http (img : str) :
  startswith (py "http") img = true →
  startswith (py "http") (clean_url img) = true.
Proof.
  intros H. unfold clean_url.
  apply startswith_replace_keeps; [apply escaped_slash_nonempty|head_not_in|].
  apply startswith_replace_keeps; [apply unicode_escape_nonempty|head_not_in|done].
Qed.

Lemma clean_url_keeps_host (img : str) :
  contains PHOTO_HOST img = true → contains PHOTO_HOST (clean_url img) = true.
Proof.
  intros H. unfold clean_url.
  apply contains_replace_keeps;
    [apply escaped_slash_nonempty|head_not_in|head_not_in|].
  apply contains_replace_keeps;
    [apply unicode_escape_nonempty|head_not_in|head_not_in|done].
Qed.

Lemma elem_of_concat (x : str) (ls : list (list str)) :
  x ∈ concat ls ↔ ∃ l, x ∈ l ∧ l ∈ ls.
Proof.
  induction ls as [|l ls IH]; cbn [concat].
  - split; [by intros ?%elem_of_nil|]. by intros (l & _ & ?%elem_of_nil).
  - rewrite elem_of_app, IH. split.
    + intros [H|(l' & H1 & H2)]; [exists l; split; [done|left]|].
      exists l'. split; [done|by right].
    + intros (l' & H1 & [->|H2]%elem_of_cons); [by left|right]. by exists l'.
Qed.

Lemma photo_match_http (m : str) (cls : N -> bool) (text : str) :
  m ∈ re_findall PHOTO_PREFIX cls text →
  startswith (py "http") m = true ∧ contains PHOTO_HOST m = true.
Proof.
  intros Hin.
  pose proof (re_findall_from_matches PHOTO_PREFIX cls 0 text) as Hall.
  rewrite Forall_forall in Hall. destruct (Hall m Hin) as (run & -> & _).
  split; [reflexivity|].
  apply contains_spec. exists (py "https://"), run. reflexivity.
Qed.

Lemma harvest_images_accepted (soup : Document) (u : str) :
  u ∈ harvest_images soup →
  startswith (py "http") u = true ∨ contains PHOTO_HOST u = true.
Proof.
  rewrite harvest_images_parts, append_new_first_occurrences, elem_of_app.
  intros [H|H].
  - apply list_elem_of_omap in H as (img & _ & H).
    unfold gallery_url in H.
    destruct (truthy _); [|done]. cbn [andb] in H.
    destruct (contains PHOTO_HOST _) eqn:E1; [injection H as <-; by right|].
    destruct (startswith (py "http") _) eqn:E2; [injection H as <-; by left|done].
  - apply elem_of_first_occurrences, list_elem_of_filter in H as [_ H].
    apply elem_of_app in H as [H|H].
    + unfold script_urls in H. apply elem_of_concat in H as (l & Hu & Hl).
      apply list_elem_of_fmap in Hl as (script & -> & _).
      left. by apply (photo_match_http _ _ _ Hu).
    + unfold blob_urls in H. apply elem_of_concat in H as (l & Hu & Hl).
      apply list_elem_of_fmap in Hl as (el & -> & _).
      left. by apply (photo_match_http _ _ _ Hu).
Qed.

(** X7: every URL that [parse_images] returns starts with "http" or
    names the photo host, so that it is not empty, and it holds no
    unicode-escaped slash. *)
Theorem parse_images_urls (soup : Document) :
  Forall (fun u => (startswith (py "http") u = true
                    ∨ contains PHOTO_HOST u = true)
                   ∧ u ≠ []
                   ∧ contains (py "\u002F") u = false)
         (parse_images soup).
Proof.
  rewrite Forall_forall. intros u Hu.
  unfold parse_images in Hu. rewrite unique_images_first_occurrences in Hu.
  apply elem_of_first_occurrences, list_elem_of_fmap in Hu as (raw & -> & Hraw).
  assert (startswith (py "http") (clean_url raw) = true
          ∨ contains PHOTO_HOST (clean_url raw) = true) as Hacc.
  { destruct (harvest_images_accepted soup raw Hraw) as [H|H];
      [left; by apply clean_url_keeps_http|right; by apply clean_url_keeps_host]. }
  split; [done|]. split; [|apply clean_url_no_unicode_escape].
  intros E. rewrite E in Hacc. by destruct Hacc.
Qed.

Lemma match_here_prefix (lit : str) (cls : N -> bool) (s m : str) :
  match_here lit cls s = Some m → startswith m s = true.
Proof.
  unfold match_here. destruct (startswith lit s) eqn:E; [|done].
  apply startswith_spec in E as [t ->]. rewrite drop_app_length.
  destruct (take_class_split cls t) as (post & Ht & _).
  destruct (take_class cls t) as [|x run]; [done|].
  intros [= <-]. rewrite Ht, app_assoc. apply startswith_app.
Qed.

Lemma re_findall_from_contained (lit : str) (cls : N -> bool) (skip : nat) (s : str) :
  Forall (fun m => contains m s = true) (re_findall_from lit cls skip s).
Proof.
  revert skip. induction s as [|c t IH]; intros skip; [constructor|].
  assert (∀ k, Forall (fun m => contains m (c :: t) = true)
                 (re_findall_from lit cls k t)) as Htail.
  { intros k. eapply Forall_impl; [apply IH|]. intros m. apply contains_tail. }
  cbn [re_findall_from]. destruct skip as [|k]; [|apply Htail].
  destruct (match_here lit cls (c :: t)) as [m|] eqn:E; [|apply Htail].
  constructor; [|apply Htail].
  by apply contains_here, (match_here_prefix lit cls).
Qed.

(** X8: every photo URL taken from the inline scripts is a piece of
    the text of one of the scripts of the page, and it starts with the
    photo prefix. *)
Theorem script_urls_from_scripts (soup : Document) :
  Forall (fun u => startswith PHOTO_PREFIX u = true
                   ∧ ∃ text, Some text ∈ scripts soup ∧ contains u text = true)
         (script_urls soup).
Proof.
  rewrite Forall_forall. intros u Hu.
  unfold script_urls in Hu. apply elem_of_concat in Hu as (l & Hu & Hl).
  apply list_elem_of_fmap in Hl as (script & -> & Hs).
  split.
  - pose proof (re_findall_from_matches PHOTO_PREFIX script_url_char 0
                  (attr_or script [])) as Hall.
    rewrite Forall_forall in Hall. destruct (Hall u Hu) as (run & -> & _).
    apply startswith_app.
  - pose proof (re_findall_from_contained PHOTO_PREFIX script_url_char 0
                  (attr_or script [])) as Hall.
    rewrite Forall_forall in Hall. specialize (Hall u Hu).
    destruct script as [text|];
      [|exfalso; revert Hu; apply not_elem_of_nil].
    exists text. split; [done|]. unfold attr_or in Hall, Hu.
    destruct (truthy text); [done|].
    exfalso. revert Hu. apply not_elem_of_nil.
Qed.

(** * Further properties of the paginator *)

Lemma take_append_new (n : nat) (images l : list str) :
  (n ≤ length images)%nat →
  take n (append_new images l) = take n images.
Proof.
  intros H. rewrite append_new_first_occurrences. by apply take_app_le.
Qed.

(** The inner loop keeps what [append_new] would add, cut at the
    target. *)
Lemma collect_links_take (max_listings : Z) (links : list (option str))
    (urls : list str) :
  (Z.of_nat (length urls) < max_listings)%Z →
  collect_links max_listings links urls
  = take (Z.to_nat max_listings) (append_new urls (absolute_hrefs links)).
Proof.
  revert urls. induction links as [|[href|] links IH]; intros urls Hlt.
  - cbn [collect_links]. change (absolute_hrefs []) with (@nil str).
    change (append_new urls []) with urls. rewrite take_ge; [done|lia].
  - rewrite absolute_hrefs_some. cbn [collect_links].
    destruct (truthy href); [|by apply IH].
    rewrite append_new_cons. case_decide; [by apply IH|].
    destruct (_ >=? _)%Z eqn:E.
    + apply Z.geb_le in E. rewrite length_app in E. simpl in E.
      rewrite take_append_new by (rewrite length_app; simpl; lia).
      rewrite take_ge; [done|]. rewrite length_app. simpl. lia.
    + apply IH. rewrite Z.geb_leb in E. apply Z.leb_gt in E. lia.
  - rewrite absolute_hrefs_none. by apply IH.
Qed.

Section PaginatorRuns.
Variable net : transport.
Variable base_url : str.
Variable max_listings : Z.

Lemma paginate_requests (fuel : nat) (st r : Crawl) :
  paginate fuel net base_url max_listings st = Some r →
  ∃ n, requests r = requests st ++ requests_from base_url (page st) n
       ∧ (n = 0%nat ↔ (max_listings <= Z.of_nat (length (urls st)))%Z).
Proof.
  revert st. induction fuel as [|fuel IH]; intros st.
  - rewrite paginate_zero. destruct (_ <? _)%Z eqn:E; [done|].
    apply Z.ltb_ge in E. intros [= <-]. exists 0%nat.
    split; [by rewrite app_nil_r|done].
  - rewrite paginate_succ. destruct (_ <? _)%Z eqn:E.
    2:{ apply Z.ltb_ge in E. intros [= <-]. exists 0%nat.
        split; [by rewrite app_nil_r|done]. }
    apply Z.ltb_lt in E. cbv zeta.
    assert (∀ n, S n = 0%nat ↔ (max_listings <= Z.of_nat (length (urls st)))%Z)
      as Hpos by (intros n; split; [done|lia]).
    assert (requests_from base_url (page st) 1 = [page_url base_url (page st)])
      as Hone by by rewrite requests_from_succ.
    destruct (net _ _) as [soup|].
    2:{ intros [= <-]. exists 1%nat. by rewrite Hone. }
    case_decide.
    { intros [= <-]. exists 1%nat. by rewrite Hone. }
    intros Hr. destruct (IH _ Hr) as (n & Hn & _). cbn [requests page] in Hn.
    exists (S n). split; [|done].
    by rewrite Hn, requests_from_succ, <- app_assoc.
Qed.

Lemma paginate_end (fuel : nat) (st r : Crawl) :
  paginate fuel net base_url max_listings st = Some r →
  (max_listings <= Z.of_nat (length (urls r)))%Z
  ∨ ∃ asked last,
      requests r = asked ++ [last]
      ∧ (net asked last = None
         ∨ ∃ soup, net asked last = Some soup ∧ ad_tile_links soup = []).
Proof.
  revert st. induction fuel as [|fuel IH]; intros st.
  - rewrite paginate_zero. destruct (_ <? _)%Z eqn:E; [done|].
    apply Z.ltb_ge in E. intros [= <-]. by left.
  - rewrite paginate_succ. destruct (_ <? _)%Z eqn:E.
    2:{ apply Z.ltb_ge in E. intros [= <-]. by left. }
    cbv zeta. destruct (net _ _) as [soup|] eqn:Hnet.
    2:{ intros [= <-]. right. eexists _, _. split; [done|by left]. }
    case_decide as Hlinks; [|apply IH].
    intros [= <-]. right. eexists _, _. split; [done|right].
    by exists soup.
Qed.

(** X9: the requests of a run of [get_listing_urls] are those for the
    pages 1, 2, ... up to some page, in this order and each once; none
    is made when the target is not positive, and at least one
    otherwise. *)
Theorem get_listing_requests_consecutive (fuel : nat) (asked : list str) :
  get_listing_requests fuel net base_url max_listings = Some asked →
  ∃ n, asked = page_requests base_url n
       ∧ (n = 0%nat ↔ (max_listings <= 0)%Z).
Proof.
  unfold get_listing_requests.
  destruct (paginate fuel net base_url max_listings crawl_start) as [r|] eqn:E;
    [|done].
  cbn [mbind option_bind]. intros [= <-].
  destruct (paginate_requests _ _ _ E) as (n & Hn & H0). by exists n.
Qed.

(** X10: when [get_listing_urls] returns fewer URLs than the target,
    its last request failed or was answered by a page without listing
    anchors. *)
Theorem get_listing_urls_shortfall (fuel : nat) (result asked : list str) :
  get_listing_urls fuel net base_url max_listings = Some result →
  get_listing_requests fuel net base_url max_listings = Some asked →
  (Z.of_nat (length result) < max_listings)%Z →
  ∃ before last,
    asked = before ++ [last]
    ∧ (net before last = None
       ∨ ∃ soup, net before last = Some soup ∧ ad_tile_links soup = []).
Proof.
  unfold get_listing_urls, get_listing_requests.
  destruct (paginate fuel net base_url max_listings crawl_start) as [r|] eqn:E;
    [|done].
  cbn [mbind option_bind]. intros [= <-] [= <-].
  destruct (paginate_inv _ _ _ _ _ _ E) as (_ & Hlen & _).
  { repeat split; [constructor|simpl; lia|constructor]. }
  rewrite slice_to_short by done. intros Hlt.
  destruct (paginate_end _ _ _ E) as [H|H]; [lia|done].
Qed.

End PaginatorRuns.

Section PaginatorFills.
Variable net : transport.
Variable base_url : str.
Variable max_listings : Z.

Lemma take_append_new_cut (images l : list str) :
  take (Z.to_nat max_listings)
    (append_new (take (Z.to_nat max_listings) images) l)
  = take (Z.to_nat max_listings) (append_new images l).
Proof.
  destruct (decide (length images ≤ Z.to_nat max_listings)%nat) as [Hle|Hgt].
  - by rewrite (take_ge images).
  - rewrite !take_append_new; [by rewrite take_idemp|lia|].
    rewrite length_take. lia.
Qed.

(** The run of the loop over pages that show anchors and together
    fill the target. *)
Lemma paginate_fills (pages : list (list (option str))) (fuel : nat) (st : Crawl) :
  (Z.of_nat (length (urls st)) <= max_listings)%Z →
  (max_listings
   <= Z.of_nat (length (append_new (urls st) (absolute_hrefs (concat pages)))))%Z →
  (∀ i links, pages !! i = Some links →
     links ≠ [] ∧ ∃ soup,
       net (requests st ++ requests_from base_url (page st) i)
           (page_url base_url (page st + Z.of_nat i)) = Some soup
       ∧ ad_tile_links soup = links) →
  (length pages ≤ fuel)%nat →
  ∃ r, paginate fuel net base_url max_listings st = Some r
       ∧ urls r = take (Z.to_nat max_listings)
                    (append_new (urls st) (absolute_hrefs (concat pages))).
Proof.
  revert fuel st.
  induction pages as [|links pages IH]; intros fuel st Hle Hfull Hpages Hfuel.
  - cbn [concat] in *. change (absolute_hrefs []) with (@nil str) in *.
    change (append_new (urls st) []) with (urls st) in *.
    exists st. split; [|rewrite take_ge; [done|lia]].
    assert ((Z.of_nat (length (urls st)) <? max_listings)%Z = false) as E
      by (apply Z.ltb_ge; lia).
    destruct fuel; [rewrite paginate_zero|rewrite paginate_succ]; by rewrite E.
  - cbn [concat] in *. rewrite absolute_hrefs_app, append_new_app in *.
    destruct (Z.of_nat (length (urls st)) <? max_listings)%Z eqn:E.
    + destruct fuel as [|fuel]; [simpl in Hfuel; lia|].
      rewrite paginate_succ, E. apply Z.ltb_lt in E. cbv zeta.
      destruct (Hpages 0%nat links eq_refl) as (Hne & soup & Hnet & Hlinks).
      change (requests_from base_url (page st) 0) with (@nil str) in Hnet.
      rewrite app_nil_r, Z.add_0_r in Hnet. rewrite Hnet, Hlinks.
      rewrite decide_False by done.
      rewrite collect_links_take by done.
      destruct (IH fuel
        {| urls := take (Z.to_nat max_listings)
                     (append_new (urls st) (absolute_hrefs links));
           page := (page st + 1)%Z;
           requests := requests st ++ [page_url base_url (page st)] |})
        as (r & Hr & Hu).
      * cbn [urls]. rewrite length_take. lia.
      * cbn [urls].
        pose proof (append_new_length
          (take (Z.to_nat max_listings)
             (append_new (urls st) (absolute_hrefs links)))
          (absolute_hrefs (concat pages))) as H1.
        rewrite length_take in H1.
        destruct (decide (length (append_new (urls st) (absolute_hrefs links))
                          ≤ Z.to_nat max_listings)%nat) as [Hs|Hs].
        -- by rewrite take_ge.
        -- lia.
      * intros i links' Hi. cbn [urls page requests].
        destruct (Hpages (S i) links' Hi) as (Hne' & soup' & Hnet' & Hlinks').
        split; [done|]. exists soup'. split; [|done].
        rewrite requests_from_succ in Hnet'.
        rewrite <- app_assoc. cbn [app]. rewrite <- Hnet'. f_equal. f_equal. lia.
      * simpl in Hfuel. lia.
      * exists r. split; [done|]. rewrite Hu. cbn [urls].
        apply take_append_new_cut.
    + apply Z.ltb_ge in E. exists st. split.
      * assert ((Z.of_nat (length (urls st)) <? max_listings)%Z = false) as E'
          by (apply Z.ltb_ge; lia).
        destruct fuel; [rewrite paginate_zero|rewrite paginate_succ];
          by rewrite E'.
      * rewrite <- append_new_app, take_append_new by lia.
        rewrite take_ge; [done|lia].
Qed.

(** X11: when the pages 1 to N show anchors and together hold at least
    as many different URLs as the target asks for, [get_listing_urls]
    returns the first [max_listings] of them in the order in which
    they were first seen. *)
Theorem get_listing_urls_fills (pages : list (list (option str))) (fuel : nat) :
  (∀ i links, pages !! i = Some links →
     links ≠ [] ∧ ∃ soup,
       net (page_requests base_url i) (page_url base_url (Z.of_nat (S i)))
         = Some soup
       ∧ ad_tile_links soup = links) →
  (max_listings
   <= Z.of_nat (length (first_occurrences (absolute_hrefs (concat pages)))))%Z →
  (length pages ≤ fuel)%nat →
  get_listing_urls fuel net base_url max_listings
  = Some (take (Z.to_nat max_listings)
            (first_occurrences (absolute_hrefs (concat pages)))).
Proof.
  intros Hpages Hfull Hfuel. unfold get_listing_urls.
  destruct (decide (0 <= max_listings)%Z) as [Hpos|Hneg].
  - destruct (paginate_fills pages fuel crawl_start) as (r & -> & Hu).
    + simpl. lia.
    + cbn [urls crawl_start]. by rewrite append_new_nil.
    + intros i links Hi. cbn [urls page requests crawl_start app].
      replace (1 + Z.of_nat i)%Z with (Z.of_nat (S i)) by lia.
      by apply Hpages.
    + done.
    + cbn [mbind option_bind]. rewrite Hu. cbn [urls crawl_start].
      rewrite append_new_nil. f_equal. apply slice_to_short.
      rewrite length_take. lia.
  - assert ((Z.of_nat (length (urls crawl_start)) <? max_listings)%Z = false) as E
      by (apply Z.ltb_ge; simpl; lia).
    replace (Z.to_nat max_listings) with 0%nat by lia.
    destruct fuel; [rewrite paginate_zero|rewrite paginate_succ]; rewrite E;
      cbn [mbind option_bind urls crawl_start]; f_equal;
      apply slice_to_short; simpl; lia.
Qed.

End PaginatorFills.

(** * Further properties of [external_id] *)

Lemma lstrip_by_dropped (p : N -> bool) (s : str) :
  ∃ pre, s = pre ++ lstrip_by p s ∧ Forall (fun c => p c = true) pre.
Proof.
  induction s as [|c s (pre & IH & Hall)]; [by exists []|].
  simpl. destruct (p c) eqn:E; [|by exists []].
  exists (c :: pre). split; [simpl; by f_equal|by constructor].
Qed.

Lemma all_equal_replicate (x : N) (l : str) :
  Forall (fun c => c = x) l → l = replicate (length l) x.
Proof. induction 1 as [|c l -> _ IH]; simpl; [done|by rewrite <- IH]. Qed.

(** X12: the [external_id] of a URL holds no slash, and the URL is some
    text that is empty or ends with a slash, then the id, then nothing
    but slashes. *)
Theorem external_id_of_split (url id : str) :
  external_id_of url = Some id →
  (47 ∉ id)
  ∧ ∃ before k,
      url = before ++ id ++ replicate k 47
      ∧ (before = [] ∨ last before = Some 47).
Proof.
  rewrite external_id_of_segment. intros [= <-].
  unfold final_segment, without_trailing. rewrite reverse_involutive.
  destruct (lstrip_by_dropped (N.eqb 47) (reverse url)) as (slashes & Hurl & Hs).
  destruct (take_class_split (fun c => negb (47 =? c))
              (lstrip_by (N.eqb 47) (reverse url)))
    as (post & Ht & Hall & Hpost).
  set (seg := take_class (fun c => negb (47 =? c))
                (lstrip_by (N.eqb 47) (reverse url))) in *.
  split.
  - rewrite elem_of_reverse. intros Hin.
    rewrite Forall_forall in Hall. specialize (Hall _ Hin). done.
  - exists (reverse post), (length slashes). split.
    + apply (f_equal reverse) in Hurl. rewrite reverse_involutive in Hurl.
      rewrite Hurl, Ht, !reverse_app, <- app_assoc. do 2 f_equal.
      rewrite <- (length_reverse slashes). apply all_equal_replicate.
      apply Forall_reverse. eapply Forall_impl; [exact Hs|].
      intros c Hc. apply N.eqb_eq in Hc. done.
    + destruct post as [|c post]; [by left|right].
      rewrite last_reverse. simpl. f_equal.
      specialize (Hpost c eq_refl). apply negb_false_iff, N.eqb_eq in Hpost.
      done.
Qed.

(** * Further properties of [scrape_listing] and [main] *)

Section Assembly.
Context {U : UnicodeData}.
Variable net : transport.

Lemma scrape_listing_some (asked : list str) (link kind : str) (r : ListingRecord) :
  scrape_listing net asked link kind = Some r →
  ∃ soup, net asked link = Some soup
    ∧ url r = link ∧ listing_type r = kind
    ∧ external_id_of link = Some (external_id r)
    ∧ details r = parse_details soup
    ∧ images r = parse_images soup
    ∧ location r
      = (let location := default [] (parse_details soup !! py "Localización") in
         if truthy location then location
         else text_or_empty (el_or (d3_location_el soup) (location_el soup))).
Proof.
  unfold scrape_listing. destruct (net asked link) as [soup|]; [|done].
  rewrite external_id_of_segment. intros [= <-]. by exists soup.
Qed.

(** X13: the location of a listing is the value that its details table
    holds under the label Localización whenever the table has the
    label, and the text of the location element of the page (empty
    when there is none) otherwise. *)
Theorem scrape_listing_location (asked : list str) (link kind : str)
    (r : ListingRecord) :
  scrape_listing net asked link kind = Some r →
  ∃ soup, net asked link = Some soup
    ∧ location r
      = match details r !! py "Localización" with
        | Some v => v
        | None => text_or_empty (el_or (d3_location_el soup) (location_el soup))
        end.
Proof.
  intros H. destruct (scrape_listing_some _ _ _ _ H)
    as (soup & Hnet & _ & _ & _ & Hd & _ & Hl).
  exists soup. split; [done|]. rewrite Hl, Hd. cbv zeta.
  destruct (parse_details soup !! py "Localización") as [v|] eqn:E; [|done].
  cbn [default]. pose proof (parse_details_value _ _ _ E).
  by destruct v.
Qed.

(** What one run of the loop of [main] over the URLs of a category
    adds to [all_listings]. *)
Lemma scrape_each_adds (asked urls : list str) (kind : str)
    (all_listings : list ListingRecord) :
  ∃ new,
    scrape_each net asked urls kind all_listings
      = (all_listings ++ new, asked ++ urls)
    ∧ url <$> new `sublist_of` urls
    ∧ Forall (fun r => listing_type r = kind
                       ∧ external_id_of (url r) = Some (external_id r)
                       ∧ NoDup (images r)) new
    ∧ ((∀ asked' u, is_Some (net asked' u)) → url <$> new = urls).
Proof.
  revert asked all_listings.
  induction urls as [|u urls IH]; intros asked all_listings.
  - exists []. by rewrite !app_nil_r.
  - cbn [scrape_each].
    destruct (scrape_listing net asked u kind) as [r|] eqn:E.
    + destruct (IH (asked ++ [u]) (all_listings ++ [r]))
        as (new & -> & Hsub & Hall & Hfull).
      destruct (scrape_listing_some _ _ _ _ E)
        as (soup & _ & Hu & Hk & Hid & _ & Himg & _).
      exists (r :: new). rewrite <- !app_assoc. split; [done|].
      rewrite fmap_cons, Hu. split; [by apply sublist_skip|]. split.
      * constructor; [|done]. rewrite Hu. repeat split; [done..|].
        rewrite Himg. unfold parse_images.
        rewrite unique_images_first_occurrences.
        apply NoDup_first_occurrences.
      * intros Hnet. by rewrite Hfull.
    + destruct (IH (asked ++ [u]) all_listings) as (new & -> & Hsub & Hall & _).
      exists new. rewrite <- app_assoc. split; [done|].
      split; [by apply sublist_cons|]. split; [done|].
      intros Hnet. exfalso. destruct (Hnet asked u) as [soup Hsoup].
      unfold scrape_listing in E. rewrite Hsoup, external_id_of_segment in E.
      done.
Qed.

Lemma scrape_each_exact (asked urls : list str) (kind : str)
    (all_listings : list ListingRecord) :
  scrape_each net asked urls kind all_listings
  = (all_listings
     ++ omap id (imap (fun i u => scrape_listing net (asked ++ take i urls) u kind)
                   urls),
     asked ++ urls).
Proof.
  revert asked all_listings.
  induction urls as [|u urls IH]; intros asked all_listings.
  - cbn [scrape_each imap omap list_omap]. by rewrite !app_nil_r.
  - cbn [scrape_each]. rewrite IH, imap_cons.
    rewrite (imap_ext
               ((fun i u' => scrape_listing net (asked ++ take i (u :: urls)) u' kind)
                ∘ S)
               (fun i u' => scrape_listing net ((asked ++ [u]) ++ take i urls) u' kind)).
    2:{ intros i u' _. cbn [compose take]. by rewrite <- app_assoc. }
    cbn [omap list_omap id take]. rewrite (app_nil_r asked).
    rewrite <- (app_assoc asked [u] urls). cbn [app].
    destruct (scrape_listing net asked u kind) as [r|]; [|done].
    by rewrite <- app_assoc.
Qed.

(** X14: the loop of [main] over the URLs of a category requests every
    URL once, in order, whether the request succeeds or fails, and adds
    exactly the records that [scrape_listing] returns for the URLs, in
    their order: each URL whose request is answered gets a record with
    the listing type of the category, also after a request that
    failed, and a URL whose request fails gets none. *)
Theorem scrape_each_in_order (asked urls : list str) (kind : str)
    (all_listings : list ListingRecord) :
  ∃ new,
    scrape_each net asked urls kind all_listings
      = (all_listings ++ new, asked ++ urls)
    ∧ url <$> new `sublist_of` urls
    ∧ Forall (fun r => listing_type r = kind) new
    ∧ ((∀ asked' u, is_Some (net asked' u)) → url <$> new = urls)
    ∧ new = omap id (imap (fun i u =>
                             scrape_listing net (asked ++ take i urls) u kind)
                       urls)
    ∧ (∀ i u, urls !! i = Some u →
         is_Some (net (asked ++ take i urls) u) →
         ∃ r, r ∈ new ∧ url r = u ∧ listing_type r = kind)
    ∧ (∀ r, r ∈ new →
         ∃ i, urls !! i = Some (url r)
              ∧ is_Some (net (asked ++ take i urls) (url r))).
Proof.
  destruct (scrape_each_adds asked urls kind all_listings)
    as (new & E & Hsub & Hall & Hfull).
  assert (new = omap id (imap (fun i u =>
                                 scrape_listing net (asked ++ take i urls) u kind)
                           urls)) as Hnew.
  { rewrite scrape_each_exact in E. injection E as E.
    by apply app_inv_head in E. }
  exists new. split; [done|]. split; [done|]. split.
  { eapply Forall_impl; [exact Hall|]. by intros r (? & _). }
  split; [done|]. split; [done|]. split.
  - intros i u Hi [soup Hsoup].
    destruct (scrape_listing_fetched net (asked ++ take i urls) u kind soup Hsoup)
      as (r & Hr & Hu & Hk & _).
    exists r. split; [|done]. rewrite Hnew.
    apply list_elem_of_omap. exists (Some r). split; [|done].
    apply list_elem_of_lookup. exists i.
    by rewrite list_lookup_imap, Hi, <- Hr.
  - intros r Hr. rewrite Hnew in Hr.
    apply list_elem_of_omap in Hr as (o & Ho & Hid).
    unfold id in Hid. subst o.
    apply list_elem_of_lookup in Ho as (i & Ho).
    rewrite list_lookup_imap in Ho.
    destruct (urls !! i) as [u|] eqn:Hi; [|done]. injection Ho as Ho.
    destruct (scrape_listing_some _ _ _ _ Ho) as (soup & Hsoup & Hu & _).
    exists i. rewrite Hu. split; [done|by exists soup].
Qed.

Lemma get_listing_urls_after_sound (fuel : nat) (asked : list str)
    (base_url : str) (max_listings : Z) (result asked' : list str) :
  get_listing_urls_after fuel net asked base_url max_listings
    = Some (result, asked') →
  NoDup result
  ∧ (length result ≤ Z.to_nat max_listings)%nat
  ∧ Forall (fun u => startswith (py "http") u = true) result.
Proof.
  unfold get_listing_urls_after.
  destruct (paginate _ _ _ _ _) as [st|] eqn:E; [|done].
  cbn [mbind option_bind]. intros [= <- <-].
  destruct (paginate_inv _ _ _ _ _ _ E) as (Hnd & Hlen & Hfrom).
  { repeat split; [constructor|simpl; lia|constructor]. }
  rewrite slice_to_short by done. repeat split; [done|lia|].
  eapply Forall_impl; [exact Hfrom|].
  intros u (_ & _ & _ & href & _ & _ & _ & ->). apply make_absolute_url_http.
Qed.

Lemma final_segment_no_sep (sep : N) (s : str) : sep ∉ final_segment sep s.
Proof.
  unfold final_segment. rewrite elem_of_reverse. intros Hin.
  destruct (take_class_split (fun c => negb (sep =? c)) (reverse s))
    as (_ & _ & Hall & _).
  rewrite Forall_forall in Hall. specialize (Hall _ Hin).
  by rewrite N.eqb_refl in Hall.
Qed.

(** The records that [main] collects for one category. *)
Lemma category_records (fuel : nat) (asked : list str) (base_url kind : str)
    (all_listings : list ListingRecord) (urls asked' : list str) :
  get_listing_urls_after fuel net asked base_url 50 = Some (urls, asked') →
  ∃ new,
    scrape_each net asked' urls kind all_listings
      = (all_listings ++ new, asked' ++ urls)
    ∧ (length new ≤ 50)%nat
    ∧ NoDup (url <$> new)
    ∧ Forall (fun r => listing_type r = kind
                       ∧ startswith (py "http") (url r) = true
                       ∧ external_id r ≠ []
                       ∧ (47 ∉ external_id r)
                       ∧ NoDup (images r)) new.
Proof.
  intros Hurls.
  destruct (get_listing_urls_after_sound _ _ _ _ _ _ Hurls) as (Hnd & Hlen & Hhttp).
  destruct (scrape_each_adds asked' urls kind all_listings)
    as (new & E & Hsub & Hall & _).
  exists new. split; [done|]. split; [|split].
  - apply sublist_length in Hsub. rewrite length_fmap in Hsub.
    change (Z.to_nat 50) with 50%nat in Hlen. lia.
  - by eapply sublist_NoDup.
  - rewrite Forall_forall in Hall |- *. intros r Hr.
    destruct (Hall r Hr) as (Hk & Hid & Himg).
    assert (startswith (py "http") (url r) = true) as Hh.
    { rewrite Forall_forall in Hhttp. apply Hhttp.
      eapply elem_of_sublist; [|exact Hsub]. by apply list_elem_of_fmap_2. }
    rewrite external_id_of_segment in Hid. injection Hid as Hid.
    repeat split; [done..| | |done].
    + rewrite <- Hid. apply external_id_nonempty_iff.
      apply startswith_spec in Hh as [t ->].
      exists 104. split; [|done]. vm_compute. left.
    + rewrite <- Hid. apply final_segment_no_sep.
Qed.

(** X15: the list that [main] writes holds the sale records first and
    the rent records after them, at most fifty of each, and no two
    records of a category have the same URL. *)
Theorem main_sale_then_rent (fuel : nat) (all_listings : list ListingRecord) :
  main fuel net = Some all_listings →
  ∃ sales rents,
    all_listings = sales ++ rents
    ∧ Forall (fun r => listing_type r = py "sale") sales
    ∧ Forall (fun r => listing_type r = py "rent") rents
    ∧ (length sales ≤ 50)%nat ∧ (length rents ≤ 50)%nat
    ∧ NoDup (url <$> sales) ∧ NoDup (url <$> rents).
Proof.
  unfold main.
  destruct (get_listing_urls_after fuel net [] SALE_URL 50)
    as [[sale_urls asked1]|] eqn:E1; [|done].
  cbn [mbind option_bind].
  destruct (category_records _ _ _ (py "sale") [] _ _ E1)
    as (sales & -> & Hlen1 & Hnd1 & Hall1).
  destruct (get_listing_urls_after fuel net (asked1 ++ sale_urls) RENT_URL 50)
    as [[rent_urls asked2]|] eqn:E2; [|done].
  cbn [mbind option_bind].
  destruct (category_records _ _ _ (py "rent") ([] ++ sales) _ _ E2)
    as (rents & -> & Hlen2 & Hnd2 & Hall2).
  intros [= <-]. exists sales, rents.
  split; [done|]. split; [|split; [|by repeat (split; [done|])]].
  - eapply Forall_impl; [exact Hall1|]. by intros r (? & _).
  - eapply Forall_impl; [exact Hall2|]. by intros r (? & _).
Qed.

(** X16: every record that [main] writes has a URL that starts with
    "http", an [external_id] that is not empty and holds no slash, and
    images without duplicates. *)
Theorem main_records_shaped (fuel : nat) (all_listings : list ListingRecord) :
  main fuel net = Some all_listings →
  Forall (fun r => startswith (py "http") (url r) = true
                   ∧ external_id r ≠ []
                   ∧ (47 ∉ external_id r)
                   ∧ NoDup (images r)) all_listings.
Proof.
  unfold main.
  destruct (get_listing_urls_after fuel net [] SALE_URL 50)
    as [[sale_urls asked1]|] eqn:E1; [|done].
  cbn [mbind option_bind].
  destruct (category_records _ _ _ (py "sale") [] _ _ E1)
    as (sales & -> & _ & _ & Hall1).
  destruct (get_listing_urls_after fuel net (asked1 ++ sale_urls) RENT_URL 50)
    as [[rent_urls asked2]|] eqn:E2; [|done].
  cbn [mbind option_bind].
  destruct (category_records _ _ _ (py "rent") ([] ++ sales) _ _ E2)
    as (rents & -> & _ & _ & Hall2).
  intros [= <-]. cbn [app]. apply Forall_app. split.
  - eapply Forall_impl; [exact Hall1|]. by intros r (_ & ?).
  - eapply Forall_impl; [exact Hall2|]. by intros r (_ & ?).
Qed.

End Assembly.

(** * Page addresses *)

Lemma utf8_decode_ascii (bytes : list N) :
  Forall (fun b => b < 128) bytes → utf8_decode bytes = bytes.
Proof.
  induction 1 as [|b bytes Hb _ IH]; [done|].
  cbn [utf8_decode]. apply N.ltb_lt in Hb. by rewrite Hb, IH.
Qed.

Lemma bytes_inj (s1 s2 : string) :
  N_of_ascii <$> list_ascii_of_string s1 = N_of_ascii <$> list_ascii_of_string s2 →
  s1 = s2.
Proof.
  revert s2. induction s1 as [|a s1 IH]; intros [|b s2]; simpl; try done.
  intros [= Hab Hs]. f_equal; [|by apply IH].
  by rewrite <- (ascii_N_embedding a), <- (ascii_N_embedding b), Hab.
Qed.

Lemma uint_bytes_ascii (d : Decimal.uint) :
  Forall (fun b => b < 128)
    (N_of_ascii <$> list_ascii_of_string (NilEmpty.string_of_uint d)).
Proof. induction d; simpl; by constructor. Qed.

Lemma int_bytes_ascii (d : Decimal.int) :
  Forall (fun b => b < 128)
    (N_of_ascii <$> list_ascii_of_string (NilZero.string_of_int d)).
Proof.
  assert (∀ u, Forall (fun b => b < 128)
                 (N_of_ascii <$> list_ascii_of_string (NilZero.string_of_uint u)))
    as Hu.
  { intros u. destruct u; try apply uint_bytes_ascii.
    simpl. by repeat constructor. }
  destruct d as [u|u]; simpl; [apply Hu|]. constructor; [done|apply Hu].
Qed.

(** [str(n)] tells the integers apart. *)
Lemma str_of_int_inj (n m : Z) : str_of_int n = str_of_int m → n = m.
Proof.
  unfold str_of_int, py.
  rewrite !utf8_decode_ascii by apply int_bytes_ascii.
  intros H%bytes_inj. apply DecimalZ.to_int_inj.
  assert (∀ z, Z.to_int z ≠ Decimal.Pos Decimal.Nil
               ∧ Z.to_int z ≠ Decimal.Neg Decimal.Nil) as Hnil.
  { intros [|q|q]; split; try discriminate; intros [= E];
      by apply DecimalPos.Unsigned.to_uint_nonnil in E. }
  destruct (Hnil n), (Hnil m).
  apply (f_equal NilZero.int_of_string) in H.
  rewrite !NilZero.isi in H by done. by injection H.
Qed.

Lemma page_url_inj (base_url : str) (p q : Z) :
  page_url base_url p = page_url base_url q → p = q.
Proof.
  unfold page_url. change (py ".") with [46]. repeat case_decide; try congruence.
  - intros Heq. apply (f_equal length) in Heq. rewrite !length_app in Heq.
    simpl in Heq. lia.
  - intros Heq. apply (f_equal length) in Heq. rewrite !length_app in Heq.
    simpl in Heq. lia.
  - intros Heq. apply app_inv_head in Heq. injection Heq as Heq.
    by apply str_of_int_inj.
Qed.

Lemma requests_from_NoDup (base_url : str) (first : Z) (n : nat) :
  NoDup (requests_from base_url first n).
Proof.
  unfold requests_from. apply NoDup_fmap_2; [|apply NoDup_seq].
  intros j k H. apply page_url_inj in H. lia.
Qed.

(** X17: in a run of [get_listing_urls] no address is requested
    twice: the pages have pairwise different addresses and a failed
    request is not repeated. *)
Theorem get_listing_requests_NoDup (fuel : nat) (net : transport)
    (base_url : str) (max_listings : Z) (asked : list str) :
  get_listing_requests fuel net base_url max_listings = Some asked →
  NoDup asked.
Proof.
  unfold get_listing_requests.
  destruct (paginate fuel net base_url max_listings crawl_start) as [r|] eqn:E;
    [|done].
  cbn [mbind option_bind]. intros [= <-].
  destruct (paginate_requests _ _ _ _ _ _ E) as (n & -> & _).
  apply requests_from_NoDup.
Qed.

(** * What [parse_images] keeps *)

Lemma elem_of_append_new (images l : list str) (x : str) :
  x ∈ append_new images l ↔ x ∈ images ∨ x ∈ l.
Proof.
  rewrite append_new_first_occurrences, elem_of_app, elem_of_first_occurrences,
    list_elem_of_filter.
  destruct (decide (x ∈ images)); tauto.
Qed.

(** X18: nothing that the three methods of [parse_images] accept is
    lost: the normalised form of every accepted gallery source and of
    every photo URL of a script or of a data attribute is in the
    returned sequence. *)
Theorem parse_images_complete (soup : Document) (u : str) :
  (∃ img, img ∈ gallery_imgs soup ∧ gallery_url img = Some u)
  ∨ u ∈ script_urls soup ∨ u ∈ blob_urls soup →
  clean_url u ∈ parse_images soup.
Proof.
  intros H. unfold parse_images.
  rewrite unique_images_first_occurrences, elem_of_first_occurrences.
  apply list_elem_of_fmap_2.
  rewrite harvest_images_parts, elem_of_append_new, elem_of_app.
  destruct H as [(img & Hin & Hu)|H]; [left|by right].
  apply list_elem_of_omap. by exists img.
Qed.

(** * The further statements at sample inputs *)

Lemma parse_specs_entries_sample :
  py "bedrooms" ∈ SPEC_KEYS
  ∧ ((∃ label, (Some label, Some (py "4")) ∈ insight_attributes two_widgets_page)
     ∨ (∃ use_el, (Some use_el, Some (py "4")) ∈ details_items two_widgets_page)).
Proof.
  apply (parse_specs_entries (U := ascii_unicode) two_widgets_page).
  vm_compute. reflexivity.
Defined.

Lemma parse_specs_keeps_sample :
  is_Some (parse_specs (U := ascii_unicode) two_widgets_page !! py "bedrooms").
Proof.
  apply (parse_specs_keeps_insight_keys (U := ascii_unicode) two_widgets_page).
  exists (py "3"). vm_compute. reflexivity.
Defined.

Lemma parse_details_entries_sample :
  py "Publicado" ≠ [] ∧ py "12/03/2024" ≠ []
  ∧ (∀ c, head (py "12/03/2024") = Some c → is_space (UnicodeData := ascii_unicode) c = false)
  ∧ (∀ c, last (py "12/03/2024") = Some c → is_space (UnicodeData := ascii_unicode) c = false)
  ∧ ∃ text, (Some (py "Publicado"), text) ∈ detail_rows details_page
            ∧ py "12/03/2024"
              = strip (is_space (UnicodeData := ascii_unicode))
                  (replace_first (py "Publicado") [] text).
Proof.
  apply (parse_details_entries (U := ascii_unicode) details_page).
  vm_compute. reflexivity.
Defined.

Lemma parse_details_labelled_row_sample :
  parse_details (U := ascii_unicode) details_page !! py "Publicado"
  = Some (strip (is_space (UnicodeData := ascii_unicode)) (py " 12/03/2024 ")).
Proof.
  apply (parse_details_labelled_row (U := ascii_unicode) details_page
           [(Some (py "Localización"), py "LocalizaciónSan Salvador")]).
  - vm_compute. reflexivity.
  - vm_compute. discriminate.
  - vm_compute. discriminate.
Defined.

Lemma get_listing_requests_consecutive_sample :
  ∃ n, page_requests SALE_URL 3 = page_requests SALE_URL n
       ∧ (n = 0%nat ↔ (50 <= 0)%Z).
Proof.
  apply (get_listing_requests_consecutive
           (scripted_net (Some <$> sample_pages ++ [[]])) SALE_URL 50 3).
  vm_compute. reflexivity.
Defined.

Lemma get_listing_urls_shortfall_sample :
  ∃ before last,
    page_requests SALE_URL 3 = before ++ [last]
    ∧ (scripted_net (Some <$> sample_pages ++ [[]]) before last = None
       ∨ ∃ soup, scripted_net (Some <$> sample_pages ++ [[]]) before last = Some soup
                 ∧ ad_tile_links soup = []).
Proof.
  apply (get_listing_urls_shortfall
           (scripted_net (Some <$> sample_pages ++ [[]])) SALE_URL 50 3
           (first_occurrences (absolute_hrefs (concat sample_pages)))).
  - vm_compute. reflexivity.
  - vm_compute. reflexivity.
  - vm_compute. reflexivity.
Defined.

Lemma get_listing_urls_fills_sample :
  get_listing_urls 2 (scripted_net (Some <$> sample_pages)) SALE_URL 2
  = Some (take (Z.to_nat 2) (first_occurrences (absolute_hrefs (concat sample_pages)))).
Proof.
  apply (get_listing_urls_fills (scripted_net (Some <$> sample_pages)) SALE_URL 2
           sample_pages 2).
  - intros [|[|i]] links Hi; simpl in Hi; [injection Hi as <-..|discriminate];
      (split; [discriminate|eexists; split; reflexivity]).
  - vm_compute. discriminate.
  - simpl. lia.
Defined.

Lemma external_id_of_split_sample :
  (47 ∉ py "casa-venta-123456")
  ∧ ∃ before k,
      py "https://www.encuentra24.com/el-salvador-es/casa-venta-123456//"
      = before ++ py "casa-venta-123456" ++ replicate k 47
      ∧ (before = [] ∨ last before = Some 47).
Proof.
  apply (external_id_of_split
           (py "https://www.encuentra24.com/el-salvador-es/casa-venta-123456//")).
  vm_compute. reflexivity.
Defined.

Lemma scrape_listing_location_sample :
  ∃ r, scrape_listing (U := ascii_unicode) (constant_net details_page) []
         (py "https://www.encuentra24.com/el-salvador-es/casa-1") (py "sale")
       = Some r
  ∧ ∃ soup, constant_net details_page []
              (py "https://www.encuentra24.com/el-salvador-es/casa-1") = Some soup
    ∧ location r
      = match details r !! py "Localización" with
        | Some v => v
        | None => text_or_empty (el_or (d3_location_el soup) (location_el soup))
        end.
Proof.
  eexists. split; [reflexivity|].
  apply (scrape_listing_location (U := ascii_unicode) (constant_net details_page) []
           (py "https://www.encuentra24.com/el-salvador-es/casa-1") (py "sale")).
  reflexivity.
Defined.

Lemma main_sale_then_rent_sample :
  ∃ all_listings,
    main (U := ascii_unicode) 2 one_sale_net = Some all_listings
    ∧ ∃ sales rents,
        all_listings = sales ++ rents
        ∧ Forall (fun r => listing_type r = py "sale") sales
        ∧ Forall (fun r => listing_type r = py "rent") rents
        ∧ (length sales ≤ 50)%nat ∧ (length rents ≤ 50)%nat
        ∧ NoDup (url <$> sales) ∧ NoDup (url <$> rents).
Proof.
  eexists. split; [vm_compute; reflexivity|].
  apply (main_sale_then_rent (U := ascii_unicode) one_sale_net 2).
  vm_compute. reflexivity.
Defined.

Lemma main_records_shaped_sample :
  ∃ all_listings,
    main (U := ascii_unicode) 2 one_sale_net = Some all_listings
    ∧ Forall (fun r => startswith (py "http") (url r) = true
                       ∧ external_id r ≠ []
                       ∧ (47 ∉ external_id r)
                       ∧ NoDup (images r)) all_listings.
Proof.
  eexists. split; [vm_compute; reflexivity|].
  apply (main_records_shaped (U := ascii_unicode) one_sale_net 2).
  vm_compute. reflexivity.
Defined.

Lemma get_listing_requests_NoDup_sample : NoDup (page_requests RENT_URL 3).
Proof.
  apply (get_listing_requests_NoDup 3 (scripted_net (Some <$> sample_pages))
           RENT_URL 50).
  vm_compute. reflexivity.
Defined.

Lemma parse_images_complete_sample :
  clean_url (py "https://photos.encuentra24.com\/a.jpg")
  ∈ parse_images gallery_script_page.
Proof.
  apply (parse_images_complete gallery_script_page).
  left. eexists. split; [left|]. vm_compute. reflexivity.
Defined.

Example main_one_sale :
  (fun all : list ListingRecord =>
     (fun r => (url r, listing_type r, external_id r)) <$> all)
    <$> main (U := ascii_unicode) 2 one_sale_net
  = Some [(py "https://www.encuentra24.com/el-salvador-es/casa-1",
           py "sale", py "casa-1")].
Proof. vm_compute. reflexivity. Qed.

Lemma external_id_of_record_sample :
  ∃ r, scrape_listing (U := ascii_unicode) (scheme_net text_price_page) []
         (py "https://www.encuentra24.com/el-salvador-es/casa-venta-123456/")
         (py "sale") = Some r
    ∧ (∀ u, external_id_of u = Some (final_segment 47 (without_trailing 47 u)))
    ∧ external_id r
      = final_segment 47
          (without_trailing 47
             (py "https://www.encuentra24.com/el-salvador-es/casa-venta-123456/"))
    ∧ external_id r ≠ []
    ∧ py "https://www.encuentra24.com/el-salvador-es/casa-venta-123456/" ≠ [].
Proof.
  eexists. split; [vm_compute; reflexivity|].
  apply (external_id_of_record (U := ascii_unicode) (scheme_net text_price_page) []
           (py "https://www.encuentra24.com/el-salvador-es/casa-venta-123456/")
           (py "sale")).
  - intros asked u Hu. unfold scheme_net. by rewrite bool_decide_eq_false_2.
  - vm_compute. reflexivity.
Defined.

Example external_id_of_record_value :
  external_id
    <$> scrape_listing (U := ascii_unicode) (scheme_net text_price_page) []
          (py "https://www.encuentra24.com/el-salvador-es/casa-venta-123456/")
          (py "sale")
  = Some (py "casa-venta-123456").
Proof. vm_compute. reflexivity. Qed.

Example scheme_net_refuses_slash :
  scrape_listing (U := ascii_unicode) (scheme_net text_price_page) []
    (py "/") (py "sale") = None.
Proof. reflexivity. Qed.
